(** * BitSet: a shallow embedding of [bitset.py]

    The Python class [BitSet] packs [n_bits] booleans into a list of
    integers, 32 bits per element.  Its methods mutate [self.__bits] in
    place and signal errors with exceptions, so every method is modelled
    as a computation that takes the object, returns either a value or the
    exception raised, and returns the object as the call left it. *)

From Stdlib Require Import ZArith String Ascii Bool Lia DecimalString.
From stdpp Require Import base decidable option list list_numbers.

Local Open Scope Z_scope.

(** ** Exceptions and the object *)

(** The exceptions a call on a [BitSet] can end in: [ValueError] is raised
    by the class itself ("Bit position should not exceed BitSet
    capacity."), [IndexError] by list subscripting, [AttributeError] by a
    failed attribute lookup. *)
Inductive exn : Set :=
| ValueError
| IndexError
| AttributeError.

Inductive result (A : Type) : Type :=
| Ok (a : A)
| Raise (e : exn).

Arguments Ok {A} a.
Arguments Raise {A} e.

(** The instance attributes: [self.n_bits] and [self.__bits]. *)
Record BitSet : Set := mkBitSet {
  n_bits : Z;
  bits : list Z
}.

(** ** Computations on the object *)

Definition M (A : Type) : Type := BitSet -> result A * BitSet.

Definition ret {A} (a : A) : M A := fun self => (Ok a, self).

Definition raise {A} (e : exn) : M A := fun self => (Raise e, self).

Definition bind {A B} (c : M A) (k : A -> M B) : M B :=
  fun self =>
    match c self with
    | (Ok a, self') => k a self'
    | (Raise e, self') => (Raise e, self')
    end.

Notation "'do' x <- c ; k" := (bind c (fun x => k))
  (at level 10, x name, c at level 100, k at level 200).
Notation "c ;; k" := (bind c (fun _ => k))
  (at level 100, k at level 200, right associativity).

(** Reading an attribute of [self]. *)
Definition self_n_bits : M Z := fun self => (Ok (n_bits self), self).
Definition self_len_bits : M Z :=
  fun self => (Ok (Z.of_nat (length (bits self))), self).

(** What a call returned or raised, and the object it left behind. *)
Definition outcome {A} (c : M A) (self : BitSet) : result A := fst (c self).
Definition after {A} (c : M A) (self : BitSet) : BitSet := snd (c self).

(** ** Python built-ins used by the class *)

(** Subscripting a list of length [n] with [i]: indices [0 .. n-1] address
    from the front, [-n .. -1] from the back, anything else is an
    [IndexError]. *)
Definition py_index (n : nat) (i : Z) : option nat :=
  if bool_decide (0 <= i < Z.of_nat n) then Some (Z.to_nat i)
  else if bool_decide (- Z.of_nat n <= i < 0) then Some (Z.to_nat (i + Z.of_nat n))
  else None.

(** [self.__bits[idx]] as an expression. *)
Definition load (idx : Z) : M Z :=
  fun self =>
    match py_index (length (bits self)) idx with
    | Some k =>
        match bits self !! k with
        | Some w => ret w self
        | None => raise IndexError self
        end
    | None => raise IndexError self
    end.

(** [self.__bits[idx] = w]. *)
Definition store (idx : Z) (w : Z) : M unit :=
  fun self =>
    match py_index (length (bits self)) idx with
    | Some k => ret tt (mkBitSet (n_bits self) (<[k := w]> (bits self)))
    | None => raise IndexError self
    end.

(** [for x in xs: body(x)]; an exception ends the loop. *)
Fixpoint for_each {A} (xs : list A) (body : A -> M unit) : M unit :=
  match xs with
  | [] => ret tt
  | x :: xs' => body x ;; for_each xs' body
  end.

(** [range(n)]. *)
Definition range (n : Z) : list Z := seqZ 0 n.

(** [divmod(a, b)] for a positive [b]: floor division and its remainder. *)
Definition divmod (a b : Z) : Z * Z := (a / b, a mod b).

(** [int(ceil(a / b))]: the true quotient rounded up.  The quotient is
    computed in double precision; for [b = 32] and [|a| < 2^53] it is
    exact, and the ceiling below is what the expression returns. *)
Definition ceil_div (a b : Z) : Z := - ((- a) / b).

(** [str(i)] for an integer. *)
Definition str_of_int (i : Z) : string := NilZero.string_of_int (Z.to_int i).

(** [s[:k]]: the first [k] characters, or all but the last [-k] when [k]
    is negative. *)
Definition slice_to (s : string) (k : Z) : string :=
  if bool_decide (0 <= k) then substring 0 (Z.to_nat k) s
  else substring 0 (Z.to_nat (Z.of_nat (String.length s) + k)) s.

(** ** The class *)

Definition INT_SIZE : Z := 32.
Definition ALL_SET : Z := Z.shiftl 1 32 - 1.
Definition ALL_CLEAR : Z := 0.

Definition number_of_integers_needed (n_bits : Z) : Z :=
  ceil_div n_bits INT_SIZE.

Definition index_bit_in_bitset (position : Z) : Z * Z :=
  divmod position INT_SIZE.

(** The guard every method starts with:
    [if bit < 0 or bit > self.n_bits: raise ValueError(...)]. *)
Definition check_bit (bit : Z) : M unit :=
  do n <- self_n_bits;
  if (bit <? 0) || (bit >? n) then raise ValueError else ret tt.

Definition __clear (idx bit : Z) : M unit :=
  check_bit bit ;;
  do w <- load idx;
  store idx (Z.land w (Z.lnot (Z.shiftl 1 bit))).

Definition __set (idx bit : Z) : M unit :=
  check_bit bit ;;
  do w <- load idx;
  store idx (Z.lor w (Z.shiftl 1 bit)).

Definition __flip (idx bit : Z) : M unit :=
  check_bit bit ;;
  do w <- load idx;
  store idx (Z.lxor w (Z.shiftl 1 bit)).

Definition __get (idx bit : Z) : M Z :=
  check_bit bit ;;
  do w <- load idx;
  ret (Z.b2z (Z.land w (Z.shiftl 1 bit) >? 0)).

Definition set (position value : Z) : M unit :=
  if position =? -1 then
    let mask := if value =? 1 then ALL_SET else ALL_CLEAR in
    do len <- self_len_bits;
    for_each (range len) (fun i => store i mask)
  else
    let '(idx, bit) := index_bit_in_bitset position in
    check_bit bit ;;
    if value =? 1 then __set idx bit else __clear idx bit.

Definition reset (position : Z) : M unit := set position 0.

Definition __flip_all : M unit :=
  do len <- self_len_bits;
  for_each (range len) (fun i =>
    do w <- load i;
    store i (Z.lxor w ALL_SET)).

Definition flip (position : Z) : M unit :=
  if position =? -1 then __flip_all
  else
    let '(idx, bit) := index_bit_in_bitset position in
    check_bit bit ;;
    __flip idx bit.

Definition __getitem__ (position : Z) : M Z :=
  let '(idx, bit) := index_bit_in_bitset position in
  check_bit bit ;;
  __get idx bit.

(** [__int_to_bitstring]: the body of [for i in range(0, 32)], with its
    [break] for the last element of [self.__bits]. *)
Fixpoint bitstring_loop (idx : Z) (offsets : list Z) (bitstring : string)
  : M string :=
  match offsets with
  | [] => ret bitstring
  | i :: rest =>
      do len <- self_len_bits;
      do n <- self_n_bits;
      if (idx =? len - 1) && (i >=? n mod INT_SIZE) then ret bitstring
      else
        do b <- __get idx i;
        bitstring_loop idx rest (bitstring ++ str_of_int b)
  end.

Definition __int_to_bitstring (idx : Z) : M string :=
  do bitstring <- bitstring_loop idx (seqZ 0 INT_SIZE) "";
  do n <- self_n_bits;
  ret (slice_to bitstring n).

(** [__str__]: the loop [for i in range(len(self.__bits)): s += ...]. *)
Fixpoint str_loop (idxs : list Z) (s : string) : M string :=
  match idxs with
  | [] => ret s
  | i :: rest =>
      do piece <- __int_to_bitstring i;
      str_loop rest (s ++ piece)
  end.

Definition __str__ : M string :=
  do len <- self_len_bits;
  str_loop (range len) "".

(** *** Construction *)

(** Private-name mangling: inside [class BitSet] an identifier [__x] that
    does not end in two underscores stands for [_BitSet__x]. *)
Definition mangle (name : string) : string := "_BitSet" ++ name.

(** The methods of the class that take one integer and return one, by
    the name the class body binds them to.  [__number_of_integers_needed]
    is the only one; no other attribute of the class or of the object has
    a name that starts with [_BitSet__idx]. *)
Definition int_methods : list (string * (Z -> Z)) :=
  [ (mangle "__number_of_integers_needed", number_of_integers_needed) ].

Fixpoint getattr (name : string) (tbl : list (string * (Z -> Z)))
  : option (Z -> Z) :=
  match tbl with
  | [] => None
  | (n, f) :: tbl' => if String.eqb n name then Some f else getattr name tbl'
  end.

(** The object [__init__] builds once the size helper [f] is at hand. *)
Definition init_with (f : Z -> Z) (n_bits : Z) : BitSet :=
  mkBitSet n_bits ((fun _ => ALL_CLEAR) <$> range (f n_bits)).

(** [BitSet(n_bits)]: [__init__] looks up [self.__idx_of_idxs_needed]. *)
Definition __init__ (n_bits : Z) : result BitSet :=
  match getattr (mangle "__idx_of_idxs_needed") int_methods with
  | Some f => Ok (init_with f n_bits)
  | None => Raise AttributeError
  end.

(** The object the body of [__init__] describes when the size helper is
    the one the class defines, [__number_of_integers_needed]. *)
Definition fresh (n_bits : Z) : BitSet :=
  init_with number_of_integers_needed n_bits.

(** Capacity 7, all seven positions set to 1: once by [set()], once bit
    by bit. *)
Definition ones_by_set_all : BitSet := after (set (-1) 1) (fresh 7).
Definition ones_by_bit : BitSet :=
  after (set 0 1 ;; set 1 1 ;; set 2 1 ;; set 3 1 ;; set 4 1 ;; set 5 1 ;;
         set 6 1)
        (fresh 7).

(** ** The representation invariant *)

(** [self.__bits] has one element per started group of 32 positions. *)
Definition wf (self : BitSet) : Prop :=
  0 <= n_bits self /\
  Z.of_nat (length (bits self)) = number_of_integers_needed (n_bits self).

#[global] Instance wf_dec self : Decision (wf self).
Proof. unfold wf. apply _. Defined.

(** The bit the class keeps for [position]: bit [position mod 32] of
    element [position / 32]. *)
Definition stored_bit (self : BitSet) (position : Z) : bool :=
  Z.testbit (bits self !!! Z.to_nat (position / INT_SIZE)) (position mod INT_SIZE).

(** Positions [n_bits .. 32 * len - 1]: bits the list holds that no
    position below the capacity names. *)
Definition is_padding (self : BitSet) (position : Z) : Prop :=
  n_bits self <= position < INT_SIZE * Z.of_nat (length (bits self)).

(** The object after element [position / 32] was replaced by [f] of it. *)
Definition with_word (f : Z -> Z) (self : BitSet) (position : Z) : BitSet :=
  let k := Z.to_nat (position / INT_SIZE) in
  mkBitSet (n_bits self) (<[k := f (bits self !!! k)]> (bits self)).

(** The calls a client can make on an existing object. *)
Inductive call : Set :=
| CallSet (position value : Z)
| CallReset (position : Z)
| CallFlip (position : Z)
| CallGetItem (position : Z).

Definition perform (c : call) : M (option Z) :=
  match c with
  | CallSet position value => set position value ;; ret None
  | CallReset position => reset position ;; ret None
  | CallFlip position => flip position ;; ret None
  | CallGetItem position => do b <- __getitem__ position; ret (Some b)
  end.

(** ** Describing the rendering *)

Fixpoint is_binary (s : string) : bool :=
  match s with
  | EmptyString => true
  | String c s' => (Ascii.eqb c "0" || Ascii.eqb c "1") && is_binary s'
  end.

(** The characters for element [w] at the offsets [offs], lowest first. *)
Fixpoint word_string (w : Z) (offs : list Z) : string :=
  match offs with
  | [] => ""
  | i :: rest => str_of_int (Z.b2z (Z.testbit w i)) ++ word_string w rest
  end.

(** The offset at which the loop of [__int_to_bitstring] ends for
    element [idx]. *)
Definition emitted (self : BitSet) (idx : Z) : Z :=
  if idx =? Z.of_nat (length (bits self)) - 1
  then n_bits self mod INT_SIZE
  else INT_SIZE.

(** The length of the rendering of the elements from [idx] on. *)
Definition rendered_from (self : BitSet) (idx : Z) : Z :=
  let len := Z.of_nat (length (bits self)) in
  if idx <? len then INT_SIZE * (len - 1 - idx) + n_bits self mod INT_SIZE
  else 0.

(** ** Describing a call on one bit *)

(** What [set], [reset] and [flip] with a position other than [-1] come
    to: the guard on the offset, the subscript, and element [idx]
    replaced by [f] of it. *)
Definition word_update (f : Z -> Z) (idx bit : Z) (self : BitSet)
  : result unit * BitSet :=
  if n_bits self <? bit then (Raise ValueError, self)
  else
    match py_index (length (bits self)) idx with
    | Some k =>
        (Ok tt, mkBitSet (n_bits self) (<[k := f (bits self !!! k)]> (bits self)))
    | None => (Raise IndexError, self)
    end.

(** The element written by [set(position, value)]. *)
Definition set_word (position value : Z) (w : Z) : Z :=
  if value =? 1
  then Z.lor w (Z.shiftl 1 (position mod INT_SIZE))
  else Z.land w (Z.lnot (Z.shiftl 1 (position mod INT_SIZE))).

(** Every element of the list is an unsigned 32-bit number. *)
Definition words_in_range (self : BitSet) : Prop :=
  Forall (fun w => 0 <= w <= ALL_SET) (bits self).

#[global] Instance words_in_range_dec self : Decision (words_in_range self).
Proof. unfold words_in_range. apply _. Defined.

(** The character [__str__] writes for a bit. *)
Definition bit_char (b : bool) : ascii := if b then "1"%char else "0"%char.

(** * Properties *)

(** ** Running computations *)

(** Case analysis on every test and subscript a method goes through. *)
Ltac run_cases := repeat (case_match; simplify_eq/=); try done.

Lemma bind_ok {A B} (c : M A) (k : A -> M B) self a self' :
  c self = (Ok a, self') -> bind c k self = k a self'.
Proof. intros H. unfold bind. by rewrite H. Qed.

Lemma bind_raise {A B} (c : M A) (k : A -> M B) self e self' :
  c self = (Raise e, self') -> bind c k self = (Raise e, self').
Proof. intros H. unfold bind. by rewrite H. Qed.

Lemma py_index_front n i :
  0 <= i < Z.of_nat n -> py_index n i = Some (Z.to_nat i).
Proof. intros H. unfold py_index. by rewrite bool_decide_eq_true_2. Qed.

Lemma py_index_lt n i k : py_index n i = Some k -> (k < n)%nat.
Proof.
  unfold py_index. repeat case_bool_decide; intros [= <-]; lia.
Qed.

Lemma check_bit_ok bit self :
  0 <= bit <= n_bits self -> check_bit bit self = (Ok tt, self).
Proof.
  intros H. unfold check_bit, bind, self_n_bits, ret.
  replace (bit <? 0) with false by (symmetry; apply Z.ltb_ge; lia).
  replace (bit >? n_bits self) with false; [done|].
  rewrite Z.gtb_ltb. symmetry. apply Z.ltb_ge. lia.
Qed.

Lemma check_bit_inv bit self r self' :
  check_bit bit self = (r, self') -> self' = self.
Proof.
  unfold check_bit, bind, self_n_bits, ret, raise.
  case_match; by intros [= _ <-].
Qed.

Lemma load_ok idx self :
  0 <= idx < Z.of_nat (length (bits self)) ->
  load idx self = (Ok (bits self !!! Z.to_nat idx), self).
Proof.
  intros H. unfold load, ret. rewrite py_index_front by done.
  destruct (lookup_lt_is_Some_2 (bits self) (Z.to_nat idx)) as [w Hw]; [lia|].
  rewrite Hw. by rewrite (list_lookup_total_correct _ _ _ Hw).
Qed.

Lemma load_inv idx self r self' : load idx self = (r, self') -> self' = self.
Proof. unfold load, ret, raise. repeat case_match; by intros [= _ <-]. Qed.

Lemma store_ok idx w self :
  0 <= idx < Z.of_nat (length (bits self)) ->
  store idx w self =
    (Ok tt, mkBitSet (n_bits self) (<[Z.to_nat idx := w]> (bits self))).
Proof. intros H. unfold store. by rewrite py_index_front. Qed.

Lemma store_raise_inv idx w self e self' :
  store idx w self = (Raise e, self') -> self' = self.
Proof. unfold store, ret, raise. case_match; [done|]. by intros [= _ <-]. Qed.

(** ** Bits of a list element *)

Lemma testbit_shiftl_1 bit n :
  0 <= bit -> Z.testbit (Z.shiftl 1 bit) n = (bit =? n).
Proof. intros H. rewrite Z.shiftl_1_l. by apply Z.pow2_bits_eqb. Qed.

Lemma land_shiftl_1 w bit :
  0 <= bit ->
  Z.land w (Z.shiftl 1 bit) = if Z.testbit w bit then Z.shiftl 1 bit else 0.
Proof.
  intros H. apply Z.bits_inj'. intros n Hn.
  rewrite Z.land_spec, testbit_shiftl_1 by done.
  destruct (Z.eqb_spec bit n) as [->|Hne].
  - destruct (Z.testbit w n); [|by rewrite Z.bits_0].
    rewrite testbit_shiftl_1 by done. by rewrite Z.eqb_refl.
  - rewrite andb_false_r. destruct (Z.testbit w bit); [|by rewrite Z.bits_0].
    rewrite testbit_shiftl_1 by done. symmetry. by apply Z.eqb_neq.
Qed.

(** The test [self.__bits[idx] & (1 << bit) > 0] reads bit [bit]. *)
Lemma mask_test w bit :
  0 <= bit -> (Z.land w (Z.shiftl 1 bit) >? 0) = Z.testbit w bit.
Proof.
  intros H. rewrite land_shiftl_1 by done.
  destruct (Z.testbit w bit); [|done].
  rewrite Z.shiftl_1_l, Z.gtb_ltb. apply Z.ltb_lt. by apply Z.pow_pos_nonneg.
Qed.

Lemma testbit_set w bit n :
  0 <= bit -> 0 <= n ->
  Z.testbit (Z.lor w (Z.shiftl 1 bit)) n = Z.testbit w n || (bit =? n).
Proof. intros. by rewrite Z.lor_spec, testbit_shiftl_1. Qed.

Lemma testbit_clear w bit n :
  0 <= bit -> 0 <= n ->
  Z.testbit (Z.land w (Z.lnot (Z.shiftl 1 bit))) n
  = Z.testbit w n && negb (bit =? n).
Proof.
  intros. by rewrite Z.land_spec, Z.lnot_spec, testbit_shiftl_1.
Qed.

Lemma testbit_flip w bit n :
  0 <= bit -> 0 <= n ->
  Z.testbit (Z.lxor w (Z.shiftl 1 bit)) n = xorb (Z.testbit w n) (bit =? n).
Proof. intros. by rewrite Z.lxor_spec, testbit_shiftl_1. Qed.

Lemma testbit_ALL_SET n : 0 <= n -> Z.testbit ALL_SET n = (n <? INT_SIZE).
Proof.
  intros H. unfold ALL_SET, INT_SIZE. rewrite Z.shiftl_1_l, Z.sub_1_r.
  rewrite <- Z.ones_equiv. destruct (Z.ltb_spec n 32).
  - apply Z.ones_spec_low. lia.
  - apply Z.ones_spec_high. lia.
Qed.

Lemma lxor_ALL_SET_twice w : Z.lxor (Z.lxor w ALL_SET) ALL_SET = w.
Proof. by rewrite Z.lxor_assoc, Z.lxor_nilpotent, Z.lxor_0_r. Qed.

Lemma lxor_shiftl_twice w bit :
  Z.lxor (Z.lxor w (Z.shiftl 1 bit)) (Z.shiftl 1 bit) = w.
Proof. by rewrite Z.lxor_assoc, Z.lxor_nilpotent, Z.lxor_0_r. Qed.

(** ** Addressing *)

Lemma offset_range position :
  0 <= position mod INT_SIZE < INT_SIZE.
Proof. unfold INT_SIZE. apply Z.mod_pos_bound. lia. Qed.

Lemma needed_covers n position :
  0 <= position < n ->
  0 <= position / INT_SIZE < number_of_integers_needed n.
Proof.
  unfold number_of_integers_needed, ceil_div, INT_SIZE. intros H.
  pose proof (Z.div_mod position 32 ltac:(lia)).
  pose proof (Z.mod_pos_bound position 32 ltac:(lia)).
  pose proof (Z.div_mod (- n) 32 ltac:(lia)).
  pose proof (Z.mod_pos_bound (- n) 32 ltac:(lia)).
  lia.
Qed.

Lemma valid_offset self position :
  0 <= position < n_bits self ->
  0 <= position mod INT_SIZE <= n_bits self.
Proof.
  intros H. pose proof (offset_range position).
  pose proof (Z.mod_le position INT_SIZE ltac:(lia) ltac:(unfold INT_SIZE; lia)).
  lia.
Qed.

Lemma valid_index self position :
  wf self -> 0 <= position < n_bits self ->
  0 <= position / INT_SIZE < Z.of_nat (length (bits self)).
Proof. intros [_ ->] H. by apply needed_covers. Qed.

Lemma same_slot p q :
  p / INT_SIZE = q / INT_SIZE -> p mod INT_SIZE = q mod INT_SIZE -> p = q.
Proof.
  unfold INT_SIZE. intros Hd Hm.
  rewrite (Z.div_mod p 32), (Z.div_mod q 32) by lia. by rewrite Hd, Hm.
Qed.

(** ** The methods on a position below the capacity *)

Lemma read_modify_write (f : Z -> Z) idx bit self :
  0 <= bit <= n_bits self ->
  0 <= idx < Z.of_nat (length (bits self)) ->
  (check_bit bit ;; do w <- load idx; store idx (f w)) self
  = (Ok tt, mkBitSet (n_bits self)
              (<[Z.to_nat idx := f (bits self !!! Z.to_nat idx)]> (bits self))).
Proof.
  intros Hb Hi.
  rewrite (bind_ok _ _ _ _ _ (check_bit_ok _ _ Hb)).
  rewrite (bind_ok _ _ _ _ _ (load_ok _ _ Hi)).
  by apply store_ok.
Qed.

Lemma wf_with_word f self position : wf self -> wf (with_word f self position).
Proof. intros [H1 H2]. split; simpl; [done|]. by rewrite length_insert. Qed.

Lemma set_valid self position value :
  wf self -> 0 <= position < n_bits self ->
  set position value self
  = (Ok tt,
     with_word (fun w => if value =? 1
                         then Z.lor w (Z.shiftl 1 (position mod INT_SIZE))
                         else Z.land w (Z.lnot (Z.shiftl 1 (position mod INT_SIZE))))
               self position).
Proof.
  intros Hwf Hp. unfold set.
  replace (position =? -1) with false by (symmetry; apply Z.eqb_neq; lia).
  unfold index_bit_in_bitset, divmod.
  pose proof (valid_offset _ _ Hp) as Hb.
  pose proof (valid_index _ _ Hwf Hp) as Hi.
  rewrite (bind_ok _ _ _ _ _ (check_bit_ok _ _ Hb)).
  unfold with_word. destruct (value =? 1).
  - unfold __set. by rewrite read_modify_write.
  - unfold __clear. by rewrite read_modify_write.
Qed.

Lemma flip_valid self position :
  wf self -> 0 <= position < n_bits self ->
  flip position self
  = (Ok tt,
     with_word (fun w => Z.lxor w (Z.shiftl 1 (position mod INT_SIZE)))
               self position).
Proof.
  intros Hwf Hp. unfold flip.
  replace (position =? -1) with false by (symmetry; apply Z.eqb_neq; lia).
  unfold index_bit_in_bitset, divmod.
  pose proof (valid_offset _ _ Hp) as Hb.
  pose proof (valid_index _ _ Hwf Hp) as Hi.
  rewrite (bind_ok _ _ _ _ _ (check_bit_ok _ _ Hb)).
  unfold __flip, with_word. by rewrite read_modify_write.
Qed.

Lemma get_ok self idx bit :
  0 <= bit <= n_bits self ->
  0 <= idx < Z.of_nat (length (bits self)) ->
  __get idx bit self
  = (Ok (Z.b2z (Z.testbit (bits self !!! Z.to_nat idx) bit)), self).
Proof.
  intros Hb Hi. unfold __get.
  rewrite (bind_ok _ _ _ _ _ (check_bit_ok _ _ Hb)).
  rewrite (bind_ok _ _ _ _ _ (load_ok _ _ Hi)).
  unfold ret. rewrite mask_test by lia. done.
Qed.

Lemma getitem_valid self position :
  wf self -> 0 <= position < n_bits self ->
  __getitem__ position self = (Ok (Z.b2z (stored_bit self position)), self).
Proof.
  intros Hwf Hp. unfold __getitem__, index_bit_in_bitset, divmod.
  pose proof (valid_offset _ _ Hp) as Hb.
  pose proof (valid_index _ _ Hwf Hp) as Hi.
  rewrite (bind_ok _ _ _ _ _ (check_bit_ok _ _ Hb)).
  by rewrite get_ok.
Qed.

Lemma stored_bit_with_word_same f self position :
  wf self -> 0 <= position < n_bits self ->
  stored_bit (with_word f self position) position
  = Z.testbit (f (bits self !!! Z.to_nat (position / INT_SIZE)))
              (position mod INT_SIZE).
Proof.
  intros Hwf Hp. unfold stored_bit, with_word. simpl.
  pose proof (valid_index _ _ Hwf Hp).
  rewrite list_lookup_total_insert_eq by lia. done.
Qed.

Lemma stored_bit_with_word_other f self p q :
  wf self -> 0 <= p < n_bits self -> 0 <= q -> q <> p ->
  (forall w n, 0 <= n -> n <> p mod INT_SIZE ->
               Z.testbit (f w) n = Z.testbit w n) ->
  stored_bit (with_word f self p) q = stored_bit self q.
Proof.
  intros Hwf Hp Hq Hne Hf. unfold stored_bit, with_word. simpl.
  pose proof (valid_index _ _ Hwf Hp).
  destruct (decide (q / INT_SIZE = p / INT_SIZE)) as [Heq|Hdiff].
  - rewrite Heq, list_lookup_total_insert_eq by lia.
    apply Hf; [apply offset_range|].
    intros Hm. apply Hne. by apply same_slot.
  - rewrite list_lookup_total_insert_ne; [done|].
    assert (0 <= q / INT_SIZE) by (apply Z.div_pos; unfold INT_SIZE; lia).
    lia.
Qed.

(** ** The whole-array loops *)

(** A loop over [range(len(self.__bits))] whose body replaces element [i]
    by [g] of it maps [g] over the list and never raises. *)
Lemma for_each_words (g : Z -> Z) (body : Z -> M unit) :
  (forall n pre w rest,
      body (Z.of_nat (length pre)) (mkBitSet n (pre ++ w :: rest))
      = (Ok tt, mkBitSet n (pre ++ g w :: rest))) ->
  forall n rest pre,
    for_each (seqZ (Z.of_nat (length pre)) (Z.of_nat (length rest))) body
             (mkBitSet n (pre ++ rest))
    = (Ok tt, mkBitSet n (pre ++ (g <$> rest))).
Proof.
  intros Hbody n rest. induction rest as [|w rest IH]; intros pre.
  - by rewrite seqZ_nil.
  - rewrite seqZ_cons by (simpl; lia). cbn [for_each].
    rewrite (bind_ok _ _ _ _ _ (Hbody n pre w rest)).
    replace (Z.succ (Z.of_nat (length pre)))
      with (Z.of_nat (length (pre ++ [g w])))
      by (rewrite length_app; simpl; lia).
    replace (Z.pred (Z.of_nat (length (w :: rest))))
      with (Z.of_nat (length rest)) by (simpl; lia).
    rewrite (cons_middle (g w) pre rest), (assoc_L (++)).
    rewrite IH. by rewrite <- (assoc_L (++)).
Qed.

Lemma store_middle n pre w rest mask :
  store (Z.of_nat (length pre)) mask (mkBitSet n (pre ++ w :: rest))
  = (Ok tt, mkBitSet n (pre ++ mask :: rest)).
Proof.
  rewrite store_ok by (simpl; rewrite length_app; simpl; lia).
  simpl. rewrite Nat2Z.id.
  replace (length pre) with (length pre + 0)%nat at 1 by lia.
  by rewrite insert_app_r.
Qed.

Lemma load_middle n pre w rest :
  load (Z.of_nat (length pre)) (mkBitSet n (pre ++ w :: rest))
  = (Ok w, mkBitSet n (pre ++ w :: rest)).
Proof.
  rewrite load_ok by (simpl; rewrite length_app; simpl; lia).
  simpl. rewrite Nat2Z.id. by rewrite list_lookup_total_middle.
Qed.

Lemma set_all self value :
  set (-1) value self
  = (Ok tt, mkBitSet (n_bits self)
              ((fun _ => if value =? 1 then ALL_SET else ALL_CLEAR)
                 <$> bits self)).
Proof.
  destruct self as [n l]. unfold set, range. simpl.
  unfold bind at 1. unfold self_len_bits. simpl.
  apply (for_each_words (fun _ => if value =? 1 then ALL_SET else ALL_CLEAR)
           _ (fun n pre w rest => store_middle n pre w rest _) n l []).
Qed.

Lemma flip_all self :
  flip (-1) self
  = (Ok tt, mkBitSet (n_bits self)
              ((fun w => Z.lxor w ALL_SET) <$> bits self)).
Proof.
  destruct self as [n l]. unfold flip, __flip_all, range. simpl.
  unfold bind at 1. unfold self_len_bits. simpl.
  apply (for_each_words (fun w => Z.lxor w ALL_SET) _) with (pre := []).
  intros n' pre w rest.
  rewrite (bind_ok _ _ _ _ _ (load_middle n' pre w rest)).
  apply store_middle.
Qed.

(** ** The invariant is kept *)

Lemma wf_init_with n :
  0 <= n -> wf (init_with number_of_integers_needed n).
Proof.
  intros Hn. split; [done|]. unfold init_with, range. simpl.
  rewrite length_fmap, length_seqZ.
  assert (0 <= number_of_integers_needed n); [|lia].
  unfold number_of_integers_needed, ceil_div, INT_SIZE.
  pose proof (Z.div_mod (- n) 32 ltac:(lia)).
  pose proof (Z.mod_pos_bound (- n) 32 ltac:(lia)). lia.
Qed.

Lemma set_inv position value self r self' :
  set position value self = (r, self') ->
  n_bits self' = n_bits self /\ length (bits self') = length (bits self).
Proof.
  destruct (decide (position = -1)) as [->|Hne].
  - rewrite set_all. intros [= _ <-]. simpl. by rewrite length_fmap.
  - unfold set. replace (position =? -1) with false
      by (symmetry; by apply Z.eqb_neq).
    unfold index_bit_in_bitset, divmod, __set, __clear, check_bit, bind,
      self_n_bits, load, store, ret, raise.
    run_cases; intros; simplify_eq/=; rewrite ?length_insert; done.
Qed.

Lemma flip_inv position self r self' :
  flip position self = (r, self') ->
  n_bits self' = n_bits self /\ length (bits self') = length (bits self).
Proof.
  destruct (decide (position = -1)) as [->|Hne].
  - rewrite flip_all. intros [= _ <-]. simpl. by rewrite length_fmap.
  - unfold flip. replace (position =? -1) with false
      by (symmetry; by apply Z.eqb_neq).
    unfold index_bit_in_bitset, divmod, __flip, check_bit, bind, self_n_bits,
      load, store, ret, raise.
    run_cases; intros; simplify_eq/=; rewrite ?length_insert; done.
Qed.

Lemma wf_shape self self' :
  n_bits self' = n_bits self -> length (bits self') = length (bits self) ->
  wf self -> wf self'.
Proof. unfold wf. intros -> ->. done. Qed.

(** [set], [reset] and [flip] keep the invariant, whatever their
    arguments and whether or not they raise. *)
Lemma wf_set position value self : wf self -> wf (after (set position value) self).
Proof.
  unfold after. destruct (set position value self) as [r self'] eqn:E.
  destruct (set_inv _ _ _ _ _ E). by apply wf_shape.
Qed.

Lemma wf_reset position self : wf self -> wf (after (reset position) self).
Proof. apply wf_set. Qed.

Lemma wf_flip position self : wf self -> wf (after (flip position) self).
Proof.
  unfold after. destruct (flip position self) as [r self'] eqn:E.
  destruct (flip_inv _ _ _ _ E). by apply wf_shape.
Qed.

(** ** Reading back what was written *)

Lemma getitem_pure position self : after (__getitem__ position) self = self.
Proof.
  unfold after, __getitem__, index_bit_in_bitset, divmod, __get, check_bit,
    bind, self_n_bits, load, ret, raise.
  run_cases.
Qed.

(** C5. On an object that satisfies the invariant, for a position [p] in
    [0, n_bits) and a value 0 or 1: [set(p, v)] returns normally, reading
    [p] afterwards gives [v], and reading any other position in
    [0, n_bits) gives what it gave before the call. *)
Theorem set_get_roundtrip self p v :
  wf self -> 0 <= p < n_bits self -> v = 0 \/ v = 1 ->
  exists self',
    set p v self = (Ok tt, self') /\
    outcome (__getitem__ p) self' = Ok v /\
    forall q, 0 <= q < n_bits self -> q <> p ->
      outcome (__getitem__ q) self' = outcome (__getitem__ q) self.
Proof.
  intros Hwf Hp Hv. eexists. split; [by apply set_valid|].
  set (f := fun w : Z => _).
  pose proof (wf_with_word f self p Hwf) as Hwf'.
  pose proof (offset_range p) as Hb.
  split.
  - unfold outcome. rewrite getitem_valid by done.
    rewrite stored_bit_with_word_same by done. subst f. simpl.
    destruct Hv as [-> | ->]; simpl.
    + rewrite testbit_clear by lia. by rewrite Z.eqb_refl, andb_false_r.
    + rewrite testbit_set by lia. by rewrite Z.eqb_refl, orb_true_r.
  - intros q Hq Hne. unfold outcome.
    rewrite !getitem_valid by done.
    rewrite stored_bit_with_word_other; [done..| lia | done |].
    intros w n Hn Hnb. subst f. simpl.
    assert ((p mod INT_SIZE =? n) = false) as E by (apply Z.eqb_neq; lia).
    destruct (v =? 1).
    + rewrite testbit_set by lia. by rewrite E, orb_false_r.
    + rewrite testbit_clear by lia. by rewrite E, andb_true_r.
Qed.

(** The round trip at position 3 of a capacity-7 object. *)
Lemma set_get_roundtrip_witness :
  wf (fresh 7) /\ 0 <= 3 < n_bits (fresh 7) /\
  exists self',
    set 3 1 (fresh 7) = (Ok tt, self') /\
    outcome (__getitem__ 3) self' = Ok 1 /\
    forall q, 0 <= q < n_bits (fresh 7) -> q <> 3 ->
      outcome (__getitem__ q) self' = outcome (__getitem__ q) (fresh 7).
Proof.
  assert (wf (fresh 7)) as Hwf by (split; [simpl; lia | reflexivity]).
  assert (0 <= 3 < n_bits (fresh 7)) as Hp by (simpl; lia).
  split; [exact Hwf|]. split; [exact Hp|].
  apply (set_get_roundtrip (fresh 7) 3 1 Hwf Hp). right. reflexivity.
Defined.

(** ** Flipping *)

(** C6. [flip()] with the default position [-1] returns normally and
    replaces every element of the list by its XOR with [ALL_SET], the
    32-bit all-ones mask; on an object that satisfies the invariant every
    position in [0, n_bits) then reads 1 minus what it read before. *)
Theorem flip_all_complements self :
  wf self ->
  exists self',
    flip (-1) self = (Ok tt, self') /\
    n_bits self' = n_bits self /\
    bits self' = (fun w => Z.lxor w ALL_SET) <$> bits self /\
    forall p, 0 <= p < n_bits self ->
      exists b,
        outcome (__getitem__ p) self = Ok b /\
        outcome (__getitem__ p) self' = Ok (1 - b).
Proof.
  intros Hwf. eexists. split; [apply flip_all|]. do 2 (split; [done|]).
  intros p Hp. eexists. split.
  - unfold outcome. by rewrite getitem_valid.
  - assert (wf (mkBitSet (n_bits self)
                  ((fun w => Z.lxor w ALL_SET) <$> bits self))) as Hwf'.
    { eapply wf_shape; [..|exact Hwf]; simpl; [done|]. by rewrite length_fmap. }
    unfold outcome. rewrite getitem_valid by done. simpl. f_equal.
    unfold stored_bit. simpl.
    pose proof (valid_index _ _ Hwf Hp) as Hi.
    pose proof (offset_range p) as Hb.
    rewrite (list_lookup_total_fmap (fun w => Z.lxor w ALL_SET)) by lia.
    rewrite Z.lxor_spec, testbit_ALL_SET by lia.
    replace (p mod INT_SIZE <? INT_SIZE) with true
      by (symmetry; apply Z.ltb_lt; lia).
    by destruct (Z.testbit _ _).
Qed.

(** The whole-array flip of a capacity-7 object with bits 0..6 set. *)
Lemma flip_all_complements_witness :
  wf ones_by_bit /\
  exists self',
    flip (-1) ones_by_bit = (Ok tt, self') /\
    n_bits self' = n_bits ones_by_bit /\
    bits self' = (fun w => Z.lxor w ALL_SET) <$> bits ones_by_bit /\
    forall p, 0 <= p < n_bits ones_by_bit ->
      exists b,
        outcome (__getitem__ p) ones_by_bit = Ok b /\
        outcome (__getitem__ p) self' = Ok (1 - b).
Proof.
  assert (wf ones_by_bit) as Hwf by (split; [simpl; lia | reflexivity]).
  split; [exact Hwf|]. apply (flip_all_complements ones_by_bit Hwf).
Defined.

Lemma with_word_flip_twice self p :
  wf self -> 0 <= p < n_bits self ->
  let f := fun w => Z.lxor w (Z.shiftl 1 (p mod INT_SIZE)) in
  with_word f (with_word f self p) p = self.
Proof.
  intros Hwf Hp f. destruct self as [n l]. unfold with_word. simpl.
  pose proof (valid_index _ _ Hwf Hp) as Hi. simpl in Hi.
  rewrite list_lookup_total_insert_eq by lia.
  rewrite list_insert_insert_eq. subst f. simpl.
  rewrite lxor_shiftl_twice. f_equal.
  apply list_insert_id, list_lookup_lookup_total_lt. lia.
Qed.

(** C7. On an object that satisfies the invariant, for a position [p] in
    [0, n_bits): [flip(p)] twice in a row returns normally both times and
    leaves the object as it was, so every position reads as before. *)
Theorem flip_twice_restores self p :
  wf self -> 0 <= p < n_bits self ->
  exists self1 self2,
    flip p self = (Ok tt, self1) /\
    flip p self1 = (Ok tt, self2) /\
    self2 = self /\
    forall q, outcome (__getitem__ q) self2 = outcome (__getitem__ q) self.
Proof.
  intros Hwf Hp. do 2 eexists. split; [by apply flip_valid|].
  split; [apply flip_valid; [by apply wf_with_word | done]|].
  rewrite with_word_flip_twice by done. done.
Qed.

(** Flipping position 3 of a capacity-7 object twice. *)
Lemma flip_twice_restores_witness :
  wf (fresh 7) /\ 0 <= 3 < n_bits (fresh 7) /\
  exists self1 self2,
    flip 3 (fresh 7) = (Ok tt, self1) /\
    flip 3 self1 = (Ok tt, self2) /\
    self2 = fresh 7 /\
    forall q, outcome (__getitem__ q) self2 = outcome (__getitem__ q) (fresh 7).
Proof.
  assert (wf (fresh 7)) as Hwf by (split; [simpl; lia | reflexivity]).
  assert (0 <= 3 < n_bits (fresh 7)) as Hp by (simpl; lia).
  split; [exact Hwf|]. split; [exact Hp|].
  apply (flip_twice_restores (fresh 7) 3 Hwf Hp).
Defined.

(** ** Failing calls *)

Lemma set_raise_unchanged position value self e :
  outcome (set position value) self = Raise e ->
  after (set position value) self = self.
Proof.
  unfold outcome, after. destruct (decide (position = -1)) as [->|Hne].
  - by rewrite set_all.
  - unfold set. replace (position =? -1) with false
      by (symmetry; by apply Z.eqb_neq).
    unfold index_bit_in_bitset, divmod, __set, __clear, check_bit, bind,
      self_n_bits, load, store, ret, raise.
    run_cases.
Qed.

Lemma flip_raise_unchanged position self e :
  outcome (flip position) self = Raise e ->
  after (flip position) self = self.
Proof.
  unfold outcome, after. destruct (decide (position = -1)) as [->|Hne].
  - by rewrite flip_all.
  - unfold flip. replace (position =? -1) with false
      by (symmetry; by apply Z.eqb_neq).
    unfold index_bit_in_bitset, divmod, __flip, check_bit, bind, self_n_bits,
      load, store, ret, raise.
    run_cases.
Qed.

Lemma outcome_then_ret {A B} (c : M A) (f : A -> B) self :
  outcome (do a <- c; ret (f a)) self
  = match outcome c self with Ok a => Ok (f a) | Raise e => Raise e end.
Proof. unfold outcome, bind, ret. by destruct (c self) as [[a|e] s]. Qed.

Lemma after_then_ret {A B} (c : M A) (f : A -> B) self :
  after (do a <- c; ret (f a)) self = after c self.
Proof. unfold after, bind, ret. by destruct (c self) as [[a|e] s]. Qed.

(** C8. When a call of [set], [reset], [flip] or [__getitem__] raises
    [ValueError], the class's out-of-range error, the object is exactly
    as it was before the call: the guard runs before the list is
    written. *)
Theorem out_of_range_no_mutation (c : call) self :
  outcome (perform c) self = Raise ValueError ->
  after (perform c) self = self.
Proof.
  destruct c as [p v|p|p|p]; unfold perform;
    rewrite outcome_then_ret, after_then_ret; intros H.
  - apply (set_raise_unchanged p v self ValueError).
    destruct (outcome (set p v) self); by simplify_eq.
  - apply (set_raise_unchanged p 0 self ValueError). unfold reset in H.
    destruct (outcome (set p 0) self); by simplify_eq.
  - apply (flip_raise_unchanged p self ValueError).
    destruct (outcome (flip p) self); by simplify_eq.
  - apply getitem_pure.
Qed.

(** [set(8, 1)] on a capacity-7 object: refused, nothing written. *)
Lemma out_of_range_no_mutation_witness :
  outcome (perform (CallSet 8 1)) (fresh 7) = Raise ValueError /\
  after (perform (CallSet 8 1)) (fresh 7) = fresh 7.
Proof.
  split; [reflexivity|].
  apply (out_of_range_no_mutation (CallSet 8 1) (fresh 7)). reflexivity.
Defined.

(** ** [reset] and the values [set] accepts *)

(** C9. For every object and every position argument, a concrete index
    or the default [-1], [reset(position)] ends as [set(position, 0)]
    does: the same return or exception, and the same object. *)
Theorem reset_is_set_zero position self :
  reset position self = set position 0 self /\
  perform (CallReset position) self = perform (CallSet position 0) self.
Proof. done. Qed.

(** C10. For a value other than 1, [set(position, value)] ends as
    [set(position, 0)] does; with the default position [-1] it returns
    normally and leaves every element of the list [ALL_CLEAR]; with a
    position in [0, n_bits), on an object that satisfies the invariant,
    it returns normally, ANDs the element with the complement of the
    bit's mask, and the position then reads 0. *)
Theorem set_other_value_clears value :
  value <> 1 ->
  forall position self,
    set position value self = set position 0 self /\
    set (-1) value self
    = (Ok tt, mkBitSet (n_bits self)
                (replicate (length (bits self)) ALL_CLEAR)) /\
    (wf self -> 0 <= position < n_bits self ->
     set position value self
     = (Ok tt, with_word
                 (fun w => Z.land w (Z.lnot (Z.shiftl 1 (position mod INT_SIZE))))
                 self position) /\
     outcome (__getitem__ position) (after (set position value) self) = Ok 0).
Proof.
  intros Hv position self.
  assert ((value =? 1) = false) as E by by apply Z.eqb_neq.
  split; [|split].
  - unfold set. by rewrite E.
  - rewrite set_all, E. do 2 f_equal. by apply const_fmap.
  - intros Hwf Hp. unfold after. rewrite set_valid by done. rewrite E.
    split; [done|]. simpl.
    unfold outcome. rewrite getitem_valid by (by try apply wf_with_word).
    rewrite stored_bit_with_word_same by done.
    pose proof (offset_range position).
    rewrite testbit_clear by lia. by rewrite Z.eqb_refl, andb_false_r.
Qed.

(** [set(3, 5)] and [set(-1, 5)] on a capacity-7 object with all bits
    set. *)
Lemma set_other_value_clears_witness :
  5 <> 1 /\
  set 3 5 ones_by_bit = set 3 0 ones_by_bit /\
  set (-1) 5 ones_by_bit
  = (Ok tt, mkBitSet (n_bits ones_by_bit)
              (replicate (length (bits ones_by_bit)) ALL_CLEAR)) /\
  (wf ones_by_bit -> 0 <= 3 < n_bits ones_by_bit ->
   set 3 5 ones_by_bit
   = (Ok tt, with_word
               (fun w => Z.land w (Z.lnot (Z.shiftl 1 (3 mod INT_SIZE))))
               ones_by_bit 3) /\
   outcome (__getitem__ 3) (after (set 3 5) ones_by_bit) = Ok 0).
Proof.
  assert (5 <> 1) as Hv by lia.
  split; [exact Hv|]. apply (set_other_value_clears 5 Hv 3 ones_by_bit).
Defined.

(** ** The guard *)

(** X21. [bs[position]] raises [ValueError] exactly when the offset
    [position % 32] exceeds [n_bits]: the guard tests the offset within
    the element against the capacity, not the position. *)
Lemma getitem_ValueError_iff position self :
  outcome (__getitem__ position) self = Raise ValueError
  <-> n_bits self < position mod INT_SIZE.
Proof.
  pose proof (offset_range position) as Hb.
  unfold outcome, __getitem__, index_bit_in_bitset, divmod, __get, check_bit,
    bind, self_n_bits, load, ret, raise.
  replace (position mod INT_SIZE <? 0) with false
    by (symmetry; apply Z.ltb_ge; lia).
  rewrite Z.gtb_ltb. simpl.
  destruct (Z.ltb_spec (n_bits self) (position mod INT_SIZE)); simpl.
  - done.
  - split; [|lia].
    run_cases; intros; simplify_eq;
      match goal with E : (_ >? _) = true |- _ => apply Z.gtb_lt in E end; lia.
Qed.

(** X22. On an object that satisfies the length invariant, [bs[position]]
    for a position in [0, n_bits), in particular the last one
    [n_bits - 1], returns 0 or 1 and leaves the object as it was. *)
Lemma getitem_in_range_returns self position :
  wf self -> 0 <= position < n_bits self ->
  exists b, __getitem__ position self = (Ok b, self) /\ (b = 0 \/ b = 1).
Proof.
  intros Hwf Hp. eexists. split; [by apply getitem_valid|].
  destruct (stored_bit self position); simpl; lia.
Qed.

(** The last position of a capacity-7 object. *)
Lemma getitem_in_range_returns_witness :
  wf (fresh 7) /\ 0 <= 6 < n_bits (fresh 7) /\
  exists b, __getitem__ 6 (fresh 7) = (Ok b, fresh 7) /\ (b = 0 \/ b = 1).
Proof.
  assert (wf (fresh 7)) as Hwf by (split; [simpl; lia | reflexivity]).
  assert (0 <= 6 < n_bits (fresh 7)) as Hp by (simpl; lia).
  split; [exact Hwf|]. split; [exact Hp|].
  exact (getitem_in_range_returns (fresh 7) 6 Hwf Hp).
Defined.

(** C1. The guard lets positions outside [0, n_bits) through: with
    capacity 7, [bs[7]] returns 0, and [set(7, 1)], [flip(7)] and
    [reset(7)] return normally after writing bit 7 of the only element;
    with capacity 32, [bs[-1]] returns bit 31 of the last element. *)
Theorem guard_accepts_positions_outside_capacity :
  __getitem__ 7 (fresh 7) = (Ok 0, fresh 7) /\
  set 7 1 (fresh 7) = (Ok tt, mkBitSet 7 [128]) /\
  flip 7 (fresh 7) = (Ok tt, mkBitSet 7 [128]) /\
  reset 7 (mkBitSet 7 [128]) = (Ok tt, fresh 7) /\
  __getitem__ (-1) (fresh 32) = (Ok 0, fresh 32) /\
  __getitem__ (-1) (after (set 31 1) (fresh 32))
  = (Ok 1, mkBitSet 32 [2147483648]).
Proof. done. Qed.

(** ** Construction *)

(** C2. [BitSet(n)] raises [AttributeError] for every [n]: [__init__]
    calls [self.__idx_of_idxs_needed], a name the class does not bind;
    the size helper it defines is [__number_of_integers_needed]. *)
Theorem init_raises_AttributeError n : __init__ n = Raise AttributeError.
Proof. done. Qed.

(** The object the body of [__init__] describes, with the helper the
    class does define: the claimed number of elements, all zero, and every
    position in [0, n) reading 0. *)
Lemma fresh_shape n :
  0 <= n ->
  n_bits (fresh n) = n /\
  bits (fresh n) = replicate (Z.to_nat (number_of_integers_needed n)) 0 /\
  forall p, 0 <= p < n -> __getitem__ p (fresh n) = (Ok 0, fresh n).
Proof.
  intros Hn. split; [done|].
  assert (bits (fresh n)
          = replicate (Z.to_nat (number_of_integers_needed n)) 0) as Hbits.
  { unfold fresh, init_with, range. simpl.
    rewrite (const_fmap _ _ ALL_CLEAR) by done. by rewrite length_seqZ. }
  split; [done|]. intros p Hp.
  pose proof (wf_init_with n Hn) as Hwf. fold (fresh n) in Hwf.
  rewrite getitem_valid by done. do 2 f_equal.
  unfold stored_bit. rewrite Hbits.
  pose proof (needed_covers n p Hp).
  rewrite lookup_total_replicate_2 by lia. by rewrite Z.bits_0.
Qed.

(** ** Rendering *)

(** C3. With capacity 32 the rendering is the empty string, and with
    capacity 64 it has 32 characters: for the last element the loop of
    [__int_to_bitstring] stops at offset [n_bits % 32], which is 0 when
    the capacity is a multiple of 32. *)
Theorem str_drops_last_full_word :
  outcome __str__ (fresh 32) = Ok ""%string /\
  (exists s, outcome __str__ (fresh 64) = Ok s /\ String.length s = 32%nat) /\
  outcome __str__ (after (set (-1) 1) (fresh 32)) = Ok ""%string.
Proof. split; [done|]. split; [|done]. by eexists. Qed.

(** ** Bits beyond the capacity *)

(** C4. Two objects of capacity 7 that read the same at every position
    in [0, 7) and render the same, yet [bs[7]] tells them apart: it
    returns bit 7 of the element, which [set()] wrote in one of them. *)
Theorem padding_bit_read_by_getitem :
  is_padding ones_by_set_all 7 /\
  n_bits ones_by_set_all = n_bits ones_by_bit /\
  (forall p, 0 <= p < 7 ->
     outcome (__getitem__ p) ones_by_set_all
     = outcome (__getitem__ p) ones_by_bit) /\
  outcome __str__ ones_by_set_all = outcome __str__ ones_by_bit /\
  outcome (__getitem__ 7) ones_by_set_all = Ok 1 /\
  outcome (__getitem__ 7) ones_by_bit = Ok 0.
Proof.
  split; [by vm_compute|]. split; [done|]. split; [|done].
  intros p Hp.
  assert (p = 0 \/ p = 1 \/ p = 2 \/ p = 3 \/ p = 4 \/ p = 5 \/ p = 6)
    as Hcases by lia.
  destruct_or!; by subst.
Qed.

(** ** What [__str__] returns *)

Lemma append_empty_r (s : string) : (s ++ "")%string = s.
Proof. induction s as [|c s IH]; simpl; by rewrite ?IH. Qed.

Lemma append_assoc (s1 s2 s3 : string) :
  ((s1 ++ s2) ++ s3)%string = (s1 ++ (s2 ++ s3))%string.
Proof. induction s1 as [|c s1 IH]; simpl; by rewrite ?IH. Qed.

Lemma length_append (s1 s2 : string) :
  String.length (s1 ++ s2) = (String.length s1 + String.length s2)%nat.
Proof. induction s1 as [|c s1 IH]; simpl; by rewrite ?IH. Qed.

Lemma is_binary_append (s1 s2 : string) :
  is_binary (s1 ++ s2) = is_binary s1 && is_binary s2.
Proof.
  induction s1 as [|c s1 IH]; simpl; [done|]. by rewrite IH, andb_assoc.
Qed.

Lemma substring_all (s : string) k :
  (String.length s <= k)%nat -> substring 0 k s = s.
Proof.
  revert k. induction s as [|c s IH]; intros [|k] Hk; simpl in *;
    try done; try lia.
  rewrite IH; [done|lia].
Qed.

Lemma slice_to_all (s : string) k :
  Z.of_nat (String.length s) <= k -> slice_to s k = s.
Proof.
  intros Hk. unfold slice_to. rewrite bool_decide_eq_true_2 by lia.
  apply substring_all. lia.
Qed.

Lemma str_of_bit (b : bool) :
  str_of_int (Z.b2z b) = if b then "1"%string else "0"%string.
Proof. by destruct b. Qed.

Lemma length_word_string w offs :
  String.length (word_string w offs) = length offs.
Proof.
  induction offs as [|i offs IH]; simpl; [done|].
  rewrite length_append, str_of_bit, IH. by destruct (Z.testbit w i).
Qed.

Lemma is_binary_word_string w offs : is_binary (word_string w offs) = true.
Proof.
  induction offs as [|i offs IH]; simpl; [done|].
  rewrite is_binary_append, str_of_bit, IH. by destruct (Z.testbit w i).
Qed.

Lemma emitted_range self idx :
  wf self -> 0 <= idx < Z.of_nat (length (bits self)) ->
  0 <= emitted self idx <= INT_SIZE /\ emitted self idx <= n_bits self.
Proof.
  intros [Hn Hlen] Hidx. unfold emitted.
  pose proof (offset_range (n_bits self)) as Hr.
  pose proof (Z.mod_le (n_bits self) INT_SIZE Hn ltac:(unfold INT_SIZE; lia)).
  destruct (Z.eqb_spec idx (Z.of_nat (length (bits self)) - 1)); [lia|].
  split; [unfold INT_SIZE; lia|].
  revert Hlen. unfold number_of_integers_needed, ceil_div, INT_SIZE in *.
  pose proof (Z.div_mod (- n_bits self) 32 ltac:(lia)).
  pose proof (Z.mod_pos_bound (- n_bits self) 32 ltac:(lia)). lia.
Qed.

Lemma bitstring_loop_spec self idx :
  wf self -> 0 <= idx < Z.of_nat (length (bits self)) ->
  forall (m : nat) j acc,
    0 <= j -> j + Z.of_nat m <= INT_SIZE ->
    bitstring_loop idx (seqZ j (Z.of_nat m)) acc self
    = (Ok (acc ++ word_string (bits self !!! Z.to_nat idx)
                     (seqZ j (Z.min (j + Z.of_nat m) (emitted self idx) - j)))%string,
       self).
Proof.
  intros Hwf Hidx. destruct (emitted_range self idx Hwf Hidx) as [He Hen].
  induction m as [|m IH]; intros j acc Hj Hm.
  - rewrite !seqZ_nil by lia. simpl. by rewrite append_empty_r.
  - rewrite (seqZ_cons j (Z.of_nat (S m))) by lia. cbn [bitstring_loop].
    unfold bind at 1. unfold self_len_bits at 1. cbn iota beta.
    unfold bind at 1. unfold self_n_bits at 1. cbn iota beta.
    fold (emitted self idx) in *.
    destruct (Z.eqb_spec idx (Z.of_nat (length (bits self)) - 1)) as [Hlast|Hlast];
      [destruct (Z.geb_spec j (n_bits self mod INT_SIZE)) as [Hge|Hlt]|];
      cbn [andb].
    + assert (emitted self idx = n_bits self mod INT_SIZE) as Ee
        by (unfold emitted; by rewrite Hlast, Z.eqb_refl).
      rewrite seqZ_nil by lia. simpl. unfold ret. by rewrite append_empty_r.
    + assert (emitted self idx = n_bits self mod INT_SIZE) as Ee
        by (unfold emitted; by rewrite Hlast, Z.eqb_refl).
      rewrite (bind_ok _ _ _ _ _ (get_ok self idx j ltac:(lia) Hidx)).
      replace (Z.pred (Z.of_nat (S m))) with (Z.of_nat m) by lia.
      rewrite IH by lia.
      rewrite (seqZ_cons j) by lia. cbn [word_string].
      rewrite append_assoc.
      by replace (Z.pred (Z.min (j + Z.of_nat (S m)) (emitted self idx) - j))
        with (Z.min (Z.succ j + Z.of_nat m) (emitted self idx) - Z.succ j)
        by lia.
    + assert (emitted self idx = INT_SIZE) as Ee.
      { unfold emitted. by destruct (Z.eqb_spec idx (Z.of_nat (length (bits self)) - 1)). }
      rewrite (bind_ok _ _ _ _ _ (get_ok self idx j ltac:(lia) Hidx)).
      replace (Z.pred (Z.of_nat (S m))) with (Z.of_nat m) by lia.
      rewrite IH by lia.
      rewrite (seqZ_cons j) by lia. cbn [word_string].
      rewrite append_assoc.
      by replace (Z.pred (Z.min (j + Z.of_nat (S m)) (emitted self idx) - j))
        with (Z.min (Z.succ j + Z.of_nat m) (emitted self idx) - Z.succ j)
        by lia.
Qed.

Lemma int_to_bitstring_spec self idx :
  wf self -> 0 <= idx < Z.of_nat (length (bits self)) ->
  __int_to_bitstring idx self
  = (Ok (word_string (bits self !!! Z.to_nat idx) (seqZ 0 (emitted self idx))),
     self).
Proof.
  intros Hwf Hidx. destruct (emitted_range self idx Hwf Hidx) as [He Hen].
  unfold __int_to_bitstring.
  pose proof (bitstring_loop_spec self idx Hwf Hidx 32 0 "" ltac:(lia)
                ltac:(unfold INT_SIZE; lia)) as Hloop.
  change (Z.of_nat 32) with INT_SIZE in Hloop.
  rewrite (bind_ok _ _ _ _ _ Hloop).
  unfold bind, self_n_bits, ret. cbn [append].
  replace (Z.min (0 + INT_SIZE) (emitted self idx) - 0)
    with (emitted self idx) by lia.
  rewrite slice_to_all; [done|].
  rewrite length_word_string, length_seqZ. lia.
Qed.

Lemma str_loop_spec self :
  wf self ->
  forall (m : nat) j acc,
    0 <= j -> j + Z.of_nat m = Z.of_nat (length (bits self)) ->
    exists s,
      str_loop (seqZ j (Z.of_nat m)) acc self = (Ok s, self) /\
      is_binary s = is_binary acc /\
      Z.of_nat (String.length s)
      = Z.of_nat (String.length acc) + rendered_from self j.
Proof.
  intros Hwf. induction m as [|m IH]; intros j acc Hj Hm.
  - rewrite seqZ_nil by lia. exists acc. split; [done|]. split; [done|].
    unfold rendered_from.
    replace (j <? Z.of_nat (length (bits self))) with false
      by (symmetry; apply Z.ltb_ge; lia). lia.
  - rewrite seqZ_cons by lia. cbn [str_loop].
    rewrite (bind_ok _ _ _ _ _ (int_to_bitstring_spec self j Hwf ltac:(lia))).
    replace (Z.pred (Z.of_nat (S m))) with (Z.of_nat m) by lia.
    destruct (IH (Z.succ j)
                (acc ++ word_string (bits self !!! Z.to_nat j)
                          (seqZ 0 (emitted self j)))%string
                ltac:(lia) ltac:(lia)) as (s & Hs & Hbin & Hlen).
    exists s. split; [done|]. split.
    + by rewrite Hbin, is_binary_append, is_binary_word_string, andb_true_r.
    + rewrite Hlen, length_append, length_word_string, length_seqZ.
      destruct (emitted_range self j Hwf ltac:(lia)) as [He _].
      unfold rendered_from, emitted in *.
      replace (j <? Z.of_nat (length (bits self))) with true
        by (symmetry; apply Z.ltb_lt; lia).
      destruct (Z.eqb_spec j (Z.of_nat (length (bits self)) - 1)) as [->|Hne].
      * replace (Z.succ (Z.of_nat (length (bits self)) - 1)
                 <? Z.of_nat (length (bits self))) with false
          by (symmetry; apply Z.ltb_ge; lia).
        lia.
      * replace (Z.succ j <? Z.of_nat (length (bits self))) with true
          by (symmetry; apply Z.ltb_lt; lia).
        unfold INT_SIZE in *. lia.
Qed.

(** X20. On an object that satisfies the invariant, [__str__] returns a
    string of '0' and '1' and leaves the object alone; the string has
    [n_bits] characters unless [n_bits] is a positive multiple of 32, when
    it has [n_bits - 32]. *)
Lemma str_length self :
  wf self ->
  exists s,
    __str__ self = (Ok s, self) /\
    is_binary s = true /\
    Z.of_nat (String.length s)
    = if n_bits self mod INT_SIZE =? 0
      then Z.max 0 (n_bits self - INT_SIZE)
      else n_bits self.
Proof.
  intros Hwf. unfold __str__, range.
  unfold bind at 1. unfold self_len_bits. cbn iota beta.
  destruct (str_loop_spec self Hwf (length (bits self)) 0 "" ltac:(lia)
              ltac:(lia)) as (s & Hs & Hbin & Hlen).
  exists s. split; [done|]. split; [done|].
  rewrite Hlen. simpl. destruct Hwf as [Hn Hwords].
  unfold rendered_from. rewrite Hwords.
  unfold number_of_integers_needed, ceil_div, INT_SIZE.
  pose proof (Z.div_mod (- n_bits self) 32 ltac:(lia)).
  pose proof (Z.mod_pos_bound (- n_bits self) 32 ltac:(lia)).
  pose proof (Z.div_mod (n_bits self) 32 ltac:(lia)).
  pose proof (Z.mod_pos_bound (n_bits self) 32 ltac:(lia)).
  destruct (Z.ltb_spec 0 (- (- n_bits self / 32)));
    destruct (Z.eqb_spec (n_bits self mod 32) 0); lia.
Qed.

(** The rendering of a capacity-64 object. *)
Lemma str_length_witness :
  wf (fresh 64) /\
  exists s,
    __str__ (fresh 64) = (Ok s, fresh 64) /\
    is_binary s = true /\
    Z.of_nat (String.length s)
    = if n_bits (fresh 64) mod INT_SIZE =? 0
      then Z.max 0 (n_bits (fresh 64) - INT_SIZE)
      else n_bits (fresh 64).
Proof.
  assert (wf (fresh 64)) as Hwf by (split; [simpl; lia | reflexivity]).
  split; [exact Hwf|]. exact (str_length (fresh 64) Hwf).
Defined.

(** * Further properties of the class *)

(** ** Every outcome of a call on one bit *)

Lemma check_bit_cases bit self :
  0 <= bit ->
  check_bit bit self
  = if n_bits self <? bit then (Raise ValueError, self) else (Ok tt, self).
Proof.
  intros H. unfold check_bit, bind, self_n_bits, ret, raise.
  replace (bit <? 0) with false by (symmetry; apply Z.ltb_ge; lia).
  rewrite Z.gtb_ltb. by destruct (n_bits self <? bit).
Qed.

Lemma py_index_lookup (l : list Z) idx k :
  py_index (length l) idx = Some k -> l !! k = Some (l !!! k).
Proof.
  intros H. apply list_lookup_lookup_total_lt. by eapply py_index_lt.
Qed.

Lemma read_modify_write_cases (f : Z -> Z) idx bit self :
  0 <= bit ->
  (check_bit bit ;; check_bit bit ;; do w <- load idx; store idx (f w)) self
  = word_update f idx bit self.
Proof.
  intros Hb. unfold word_update, bind. rewrite check_bit_cases by done.
  destruct (n_bits self <? bit) eqn:E; [done|].
  rewrite check_bit_cases, E by done.
  unfold load, store, ret, raise.
  destruct (py_index (length (bits self)) idx) as [k|] eqn:Hk; [|done].
  rewrite (py_index_lookup _ _ _ Hk). simpl. by rewrite Hk.
Qed.

Lemma set_cases position value self :
  position <> -1 ->
  set position value self
  = word_update (set_word position value) (position / INT_SIZE)
                (position mod INT_SIZE) self.
Proof.
  intros Hne. pose proof (offset_range position) as Hb.
  unfold set. replace (position =? -1) with false
    by (symmetry; by apply Z.eqb_neq).
  unfold index_bit_in_bitset, divmod, set_word.
  destruct (value =? 1).
  - unfold __set. by rewrite <- read_modify_write_cases by lia.
  - unfold __clear. by rewrite <- read_modify_write_cases by lia.
Qed.

Lemma flip_cases position self :
  position <> -1 ->
  flip position self
  = word_update (fun w => Z.lxor w (Z.shiftl 1 (position mod INT_SIZE)))
                (position / INT_SIZE) (position mod INT_SIZE) self.
Proof.
  intros Hne. pose proof (offset_range position) as Hb.
  unfold flip. replace (position =? -1) with false
    by (symmetry; by apply Z.eqb_neq).
  unfold index_bit_in_bitset, divmod, __flip.
  by rewrite <- read_modify_write_cases by lia.
Qed.

Lemma getitem_cases position self :
  __getitem__ position self
  = if n_bits self <? position mod INT_SIZE then (Raise ValueError, self)
    else
      match py_index (length (bits self)) (position / INT_SIZE) with
      | Some k =>
          (Ok (Z.b2z (Z.testbit (bits self !!! k) (position mod INT_SIZE))),
           self)
      | None => (Raise IndexError, self)
      end.
Proof.
  pose proof (offset_range position) as Hb.
  unfold __getitem__, index_bit_in_bitset, divmod, __get, bind.
  rewrite check_bit_cases by lia.
  destruct (n_bits self <? position mod INT_SIZE) eqn:E; [done|].
  rewrite check_bit_cases, E by lia.
  unfold load, ret, raise.
  destruct (py_index _ _) as [k|] eqn:Hk; [|done].
  rewrite (py_index_lookup _ _ _ Hk). by rewrite mask_test by lia.
Qed.

Lemma word_update_raise_iff f idx bit self :
  (fst (word_update f idx bit self) = Raise ValueError <-> n_bits self < bit) /\
  (fst (word_update f idx bit self) = Raise IndexError
   <-> bit <= n_bits self /\ py_index (length (bits self)) idx = None).
Proof.
  unfold word_update.
  destruct (Z.ltb_spec (n_bits self) bit);
    destruct (py_index _ _); simpl; split; split;
    try done; try lia; intros [? ?]; try done; lia.
Qed.

Lemma py_index_None n i :
  py_index n i = None <-> i < - Z.of_nat n \/ Z.of_nat n <= i.
Proof.
  unfold py_index. repeat case_bool_decide; split; try done; lia.
Qed.



(** X2. [bs[position]] raises [IndexError] exactly when the offset
    [position % 32] does not exceed [n_bits] and [position // 32] is
    outside [-len, len). *)
Theorem getitem_IndexError_iff position self :
  let len := Z.of_nat (length (bits self)) in
  outcome (__getitem__ position) self = Raise IndexError
  <-> position mod INT_SIZE <= n_bits self /\
      (position / INT_SIZE < - len \/ len <= position / INT_SIZE).
Proof.
  intros len. subst len. unfold outcome.
  rewrite getitem_cases, <- py_index_None.
  destruct (Z.ltb_spec (n_bits self) (position mod INT_SIZE));
    destruct (py_index _ _); simpl; split;
    try done; try lia; intros [? ?]; try done; lia.
Qed.

Lemma map_result_not_raise {A B} (r : result A) (f : A -> B) e :
  r <> Raise e ->
  match r with Ok a => Ok (f a) | Raise e' => Raise e' end <> Raise e.
Proof. destruct r; congruence. Qed.

(** X3. On an object with [n_bits >= 31] no call of [set], [reset],
    [flip] or [__getitem__] raises [ValueError], whatever the position:
    the offset [position % 32] is at most 31. *)
Theorem no_ValueError_from_31 (c : call) self :
  31 <= n_bits self -> outcome (perform c) self <> Raise ValueError.
Proof.
  intros Hn. pose proof offset_range as Hb. unfold INT_SIZE in Hb.
  assert (forall p f,
            fst (word_update f (p / INT_SIZE) (p mod INT_SIZE) self)
            <> Raise ValueError) as Hw.
  { intros p f H. apply word_update_raise_iff in H.
    specialize (Hb p). unfold INT_SIZE in H. lia. }
  destruct c as [p v|p|p|p]; unfold perform; rewrite outcome_then_ret;
    apply map_result_not_raise; unfold outcome.
  - destruct (decide (p = -1)) as [->|Hne]; [by rewrite set_all|].
    rewrite set_cases by done. apply Hw.
  - unfold reset.
    destruct (decide (p = -1)) as [->|Hne]; [by rewrite set_all|].
    rewrite set_cases by done. apply Hw.
  - destruct (decide (p = -1)) as [->|Hne]; [by rewrite flip_all|].
    rewrite flip_cases by done. apply Hw.
  - rewrite getitem_cases. specialize (Hb p). unfold INT_SIZE.
    replace (n_bits self <? p mod 32) with false
      by (symmetry; apply Z.ltb_ge; lia).
    by destruct (py_index _ _).
Qed.

(** [bs[40]] on a capacity-32 object is an [IndexError]. *)
Lemma no_ValueError_from_31_witness :
  31 <= n_bits (fresh 32) /\
  outcome (perform (CallGetItem 40)) (fresh 32) <> Raise ValueError.
Proof.
  assert (31 <= n_bits (fresh 32)) as Hn by (simpl; lia).
  split; [exact Hn|].
  exact (no_ValueError_from_31 (CallGetItem 40) (fresh 32) Hn).
Defined.

(** X4. A call of [set], [reset], [flip] or [__getitem__] that raises,
    [IndexError] included, leaves the object exactly as it was. *)
Theorem failed_call_leaves_object (c : call) self e :
  outcome (perform c) self = Raise e -> after (perform c) self = self.
Proof.
  destruct c as [p v|p|p|p]; unfold perform;
    rewrite outcome_then_ret, after_then_ret; intros H.
  - apply (set_raise_unchanged p v self e).
    destruct (outcome (set p v) self); by simplify_eq.
  - apply (set_raise_unchanged p 0 self e). unfold reset in H.
    destruct (outcome (set p 0) self); by simplify_eq.
  - apply (flip_raise_unchanged p self e).
    destruct (outcome (flip p) self); by simplify_eq.
  - apply getitem_pure.
Qed.

(** [flip(40)] on a capacity-32 object: [IndexError], nothing written. *)
Lemma failed_call_leaves_object_witness :
  outcome (perform (CallFlip 40)) (fresh 32) = Raise IndexError /\
  after (perform (CallFlip 40)) (fresh 32) = fresh 32.
Proof.
  split; [reflexivity|].
  apply (failed_call_leaves_object (CallFlip 40) (fresh 32) IndexError).
  reflexivity.
Defined.

(** X5. With the default position [-1], [set], [reset] and [flip]
    return normally on every object and for every value. *)
Theorem whole_array_calls_return value self :
  outcome (set (-1) value) self = Ok tt /\
  outcome (reset (-1)) self = Ok tt /\
  outcome (flip (-1)) self = Ok tt.
Proof.
  unfold outcome, reset. by rewrite !set_all, flip_all.
Qed.

(** X6. No call changes [n_bits] or the length of the list, whether it
    returns or raises; so the length invariant, once true, stays true. *)
Theorem calls_keep_shape (c : call) self :
  n_bits (after (perform c) self) = n_bits self /\
  length (bits (after (perform c) self)) = length (bits self).
Proof.
  destruct c as [p v|p|p|p]; unfold perform; rewrite after_then_ret.
  - unfold after. destruct (set p v self) as [r s'] eqn:E.
    by apply set_inv in E.
  - unfold after, reset. destruct (set p 0 self) as [r s'] eqn:E.
    by apply set_inv in E.
  - unfold after. destruct (flip p self) as [r s'] eqn:E.
    by apply flip_inv in E.
  - by rewrite getitem_pure.
Qed.

(** ** Elements stay 32-bit numbers *)

Lemma ALL_SET_ones : ALL_SET = Z.ones 32.
Proof. done. Qed.

Lemma in_range_high_bits w :
  0 <= w <= ALL_SET <-> forall n, INT_SIZE <= n -> Z.testbit w n = false.
Proof.
  unfold INT_SIZE. split.
  - intros Hw n Hn.
    assert (w = Z.land w (Z.ones 32)) as ->.
    { rewrite Z.land_ones by lia. symmetry. apply Z.mod_small.
      change ALL_SET with 4294967295 in Hw. change (2 ^ 32) with 4294967296.
      lia. }
    rewrite Z.land_spec, Z.ones_spec_high by lia. apply andb_false_r.
  - intros Hhigh.
    assert (w = Z.land w (Z.ones 32)) as ->.
    { apply Z.bits_inj'. intros n Hn. rewrite Z.land_spec.
      destruct (Z.ltb_spec n 32).
      - rewrite Z.ones_spec_low by lia. by rewrite andb_true_r.
      - rewrite Hhigh by lia. done. }
    rewrite Z.land_ones by lia.
    pose proof (Z.mod_pos_bound w (2 ^ 32) ltac:(done)).
    change ALL_SET with 4294967295. change (2 ^ 32) with 4294967296 in *.
    lia.
Qed.

Lemma in_range_set_word position value w :
  0 <= w <= ALL_SET -> 0 <= set_word position value w <= ALL_SET.
Proof.
  rewrite !in_range_high_bits. intros Hw n Hn.
  pose proof (offset_range position) as Hb. unfold INT_SIZE in *.
  assert ((position mod 32 =? n) = false) as E by (apply Z.eqb_neq; lia).
  unfold set_word, INT_SIZE. destruct (value =? 1).
  - rewrite testbit_set by lia. by rewrite Hw, E.
  - rewrite testbit_clear by lia. by rewrite Hw.
Qed.

Lemma in_range_flip_word position w :
  0 <= w <= ALL_SET ->
  0 <= Z.lxor w (Z.shiftl 1 (position mod INT_SIZE)) <= ALL_SET.
Proof.
  rewrite !in_range_high_bits. intros Hw n Hn.
  pose proof (offset_range position) as Hb. unfold INT_SIZE in *.
  assert ((position mod 32 =? n) = false) as E by (apply Z.eqb_neq; lia).
  rewrite testbit_flip by lia. by rewrite Hw, E.
Qed.

Lemma in_range_flip_all w :
  0 <= w <= ALL_SET -> 0 <= Z.lxor w ALL_SET <= ALL_SET.
Proof.
  rewrite !in_range_high_bits. intros Hw n Hn. unfold INT_SIZE in *.
  rewrite Z.lxor_spec, testbit_ALL_SET, Hw by lia.
  unfold INT_SIZE. by replace (n <? 32) with false
    by (symmetry; apply Z.ltb_ge; lia).
Qed.

Lemma words_in_range_update f idx bit self :
  (forall w, 0 <= w <= ALL_SET -> 0 <= f w <= ALL_SET) ->
  words_in_range self ->
  words_in_range (snd (word_update f idx bit self)).
Proof.
  intros Hf Hr. unfold word_update.
  destruct (n_bits self <? bit); [done|].
  destruct (py_index _ _) as [k|] eqn:Hk; [|done].
  apply Forall_insert; [done|]. apply Hf.
  apply (Forall_lookup_total_1 _ _ _ Hr). by eapply py_index_lt.
Qed.

(** X7. If every element of the list is in [0, 2^32 - 1] before a call
    of [set], [reset], [flip] or [__getitem__], every element is in that
    range after it, whatever the arguments and the outcome. *)
Theorem calls_keep_words_in_range (c : call) self :
  words_in_range self -> words_in_range (after (perform c) self).
Proof.
  intros Hr.
  assert (forall p v, words_in_range (after (set p v) self)) as Hset.
  { intros p v. unfold after.
    destruct (decide (p = -1)) as [->|Hne].
    - rewrite set_all. apply Forall_fmap, Forall_forall. intros w _. simpl.
      change ALL_SET with 4294967295. change ALL_CLEAR with 0.
      destruct (v =? 1); lia.
    - rewrite set_cases by done.
      apply words_in_range_update; [apply in_range_set_word|done]. }
  destruct c as [p v|p|p|p]; unfold perform; rewrite after_then_ret.
  - apply Hset.
  - apply Hset.
  - unfold after. destruct (decide (p = -1)) as [->|Hne].
    + rewrite flip_all. apply Forall_fmap.
      eapply Forall_impl; [exact Hr|]. intros w Hw. by apply in_range_flip_all.
    + rewrite flip_cases by done.
      apply words_in_range_update; [apply in_range_flip_word|done].
  - by rewrite getitem_pure.
Qed.

(** [flip(31)] on a capacity-32 object whose element is [ALL_SET]. *)
Lemma calls_keep_words_in_range_witness :
  words_in_range (mkBitSet 32 [ALL_SET]) /\
  words_in_range (after (perform (CallFlip 31)) (mkBitSet 32 [ALL_SET])).
Proof.
  assert (words_in_range (mkBitSet 32 [ALL_SET])) as Hr.
  { repeat constructor; vm_compute; discriminate. }
  split; [exact Hr|].
  exact (calls_keep_words_in_range (CallFlip 31) (mkBitSet 32 [ALL_SET]) Hr).
Defined.

(** ** Whole-array calls *)

Lemma fmap_flip_all_twice (l : list Z) :
  (fun w => Z.lxor w ALL_SET) <$> ((fun w => Z.lxor w ALL_SET) <$> l) = l.
Proof.
  induction l as [|w l IH]; [done|].
  cbn [fmap list_fmap] in *. by rewrite lxor_ALL_SET_twice, IH.
Qed.

(** X8. [flip()] twice in a row returns normally and gives back the
    object it started from, for every object. *)
Theorem flip_all_twice self : (flip (-1) ;; flip (-1)) self = (Ok tt, self).
Proof.
  rewrite (bind_ok _ _ _ _ _ (flip_all self)), flip_all. simpl.
  rewrite fmap_flip_all_twice. by destruct self.
Qed.

(** X9. On an object that satisfies the length invariant, [reset()]
    returns normally and leaves the all-zero object of the same capacity,
    whatever was stored before. *)
Theorem reset_all_gives_fresh self :
  wf self -> reset (-1) self = (Ok tt, fresh (n_bits self)).
Proof.
  intros [Hn Hlen]. unfold reset. rewrite set_all. simpl.
  unfold fresh, init_with, range. do 2 f_equal.
  rewrite (const_fmap _ (bits self) ALL_CLEAR) by done.
  rewrite (const_fmap _ (seqZ _ _) ALL_CLEAR) by done.
  rewrite length_seqZ. f_equal. lia.
Qed.

(** [reset()] after [set()] on a capacity-7 object. *)
Lemma reset_all_gives_fresh_witness :
  wf ones_by_set_all /\
  reset (-1) ones_by_set_all = (Ok tt, fresh (n_bits ones_by_set_all)).
Proof.
  assert (wf ones_by_set_all) as Hwf by (split; [simpl; lia | reflexivity]).
  split; [exact Hwf|]. exact (reset_all_gives_fresh ones_by_set_all Hwf).
Defined.

(** X10. On an object that satisfies the length invariant, after
    [set(-1, value)] every position in [0, n_bits) reads 1 if [value] is
    1 and 0 otherwise. *)
Theorem set_all_then_read self value p :
  wf self -> 0 <= p < n_bits self ->
  outcome (__getitem__ p) (after (set (-1) value) self)
  = Ok (if value =? 1 then 1 else 0).
Proof.
  intros Hwf Hp. unfold after. rewrite set_all. simpl.
  set (self' := mkBitSet _ _).
  assert (wf self') as Hwf'.
  { eapply wf_shape; [..|exact Hwf]; simpl; [done|]. by rewrite length_fmap. }
  unfold outcome. rewrite getitem_valid by done. simpl. f_equal.
  unfold stored_bit, self'. simpl.
  pose proof (valid_index _ _ Hwf Hp) as Hi.
  pose proof (offset_range p) as Hb.
  rewrite (list_lookup_total_fmap
             (fun _ => if value =? 1 then ALL_SET else ALL_CLEAR)) by lia.
  destruct (value =? 1).
  - rewrite testbit_ALL_SET by lia.
    by replace (p mod INT_SIZE <? INT_SIZE) with true
      by (symmetry; apply Z.ltb_lt; lia).
  - unfold ALL_CLEAR. by rewrite Z.bits_0.
Qed.

(** Position 6 of a capacity-7 object after [set()]. *)
Lemma set_all_then_read_witness :
  wf (fresh 7) /\ 0 <= 6 < n_bits (fresh 7) /\
  outcome (__getitem__ 6) (after (set (-1) 1) (fresh 7)) = Ok 1.
Proof.
  assert (wf (fresh 7)) as Hwf by (split; [simpl; lia | reflexivity]).
  assert (0 <= 6 < n_bits (fresh 7)) as Hp by (simpl; lia).
  split; [exact Hwf|]. split; [exact Hp|].
  exact (set_all_then_read (fresh 7) 1 6 Hwf Hp).
Defined.

(** ** Calls on one position *)

(** X11. On an object that satisfies the length invariant, for [p] in
    [0, n_bits): [flip(p)] returns normally, position [p] then reads 1
    minus what it read before, and every other position in [0, n_bits)
    reads as before. *)
Theorem flip_one_complements self p :
  wf self -> 0 <= p < n_bits self ->
  exists self' b,
    flip p self = (Ok tt, self') /\
    outcome (__getitem__ p) self = Ok b /\
    outcome (__getitem__ p) self' = Ok (1 - b) /\
    forall q, 0 <= q < n_bits self -> q <> p ->
      outcome (__getitem__ q) self' = outcome (__getitem__ q) self.
Proof.
  intros Hwf Hp. do 2 eexists. split; [by apply flip_valid|].
  set (f := fun w : Z => _).
  pose proof (wf_with_word f self p Hwf) as Hwf'.
  pose proof (offset_range p) as Hb.
  unfold outcome. split; [by rewrite getitem_valid|]. split.
  - rewrite getitem_valid by done. simpl. f_equal.
    rewrite stored_bit_with_word_same by done. subst f. simpl.
    rewrite testbit_flip by lia. rewrite Z.eqb_refl.
    unfold stored_bit. by destruct (Z.testbit _ _).
  - intros q Hq Hne. rewrite !getitem_valid by done. simpl.
    rewrite stored_bit_with_word_other; [done..| lia | done |].
    intros w n Hn Hnb. subst f. simpl. rewrite testbit_flip by lia.
    replace (p mod INT_SIZE =? n) with false
      by (symmetry; apply Z.eqb_neq; lia).
    by rewrite xorb_false_r.
Qed.

(** [flip(3)] on a capacity-7 object. *)
Lemma flip_one_complements_witness :
  wf (fresh 7) /\ 0 <= 3 < n_bits (fresh 7) /\
  exists self' b,
    flip 3 (fresh 7) = (Ok tt, self') /\
    outcome (__getitem__ 3) (fresh 7) = Ok b /\
    outcome (__getitem__ 3) self' = Ok (1 - b) /\
    forall q, 0 <= q < n_bits (fresh 7) -> q <> 3 ->
      outcome (__getitem__ q) self' = outcome (__getitem__ q) (fresh 7).
Proof.
  assert (wf (fresh 7)) as Hwf by (split; [simpl; lia | reflexivity]).
  assert (0 <= 3 < n_bits (fresh 7)) as Hp by (simpl; lia).
  split; [exact Hwf|]. split; [exact Hp|].
  exact (flip_one_complements (fresh 7) 3 Hwf Hp).
Defined.

Lemma set_word_twice position value w :
  set_word position value (set_word position value w)
  = set_word position value w.
Proof.
  unfold set_word. destruct (value =? 1).
  - by rewrite <- Z.lor_assoc, Z.lor_diag.
  - by rewrite <- Z.land_assoc, Z.land_diag.
Qed.

Lemma testbit_set_word position value w n :
  0 <= n ->
  Z.testbit (set_word position value w) n
  = if value =? 1
    then Z.testbit w n || (position mod INT_SIZE =? n)
    else Z.testbit w n && negb (position mod INT_SIZE =? n).
Proof.
  intros Hn. pose proof (offset_range position).
  unfold set_word. destruct (value =? 1).
  - by rewrite testbit_set by lia.
  - by rewrite testbit_clear by lia.
Qed.

Lemma set_word_comm p v q v' w :
  p mod INT_SIZE <> q mod INT_SIZE ->
  set_word q v' (set_word p v w) = set_word p v (set_word q v' w).
Proof.
  intros Hne. apply Z.bits_inj'. intros n Hn.
  rewrite !testbit_set_word by done.
  destruct (Z.eqb_spec (p mod INT_SIZE) n), (Z.eqb_spec (q mod INT_SIZE) n);
    [congruence|..];
    destruct (v =? 1), (v' =? 1), (Z.testbit w n); done.
Qed.

Lemma word_update_valid f idx bit self :
  0 <= bit <= n_bits self ->
  0 <= idx < Z.of_nat (length (bits self)) ->
  word_update f idx bit self
  = (Ok tt, mkBitSet (n_bits self)
              (<[Z.to_nat idx := f (bits self !!! Z.to_nat idx)]> (bits self))).
Proof.
  intros Hb Hi. unfold word_update.
  replace (n_bits self <? bit) with false by (symmetry; apply Z.ltb_ge; lia).
  by rewrite py_index_front.
Qed.

(** X12. [set(position, value)] twice in a row ends exactly as once: the
    same return or exception and the same object, for every object,
    position (the default [-1] included) and value. *)
Theorem set_twice_is_once position value self :
  (set position value ;; set position value) self = set position value self.
Proof.
  destruct (decide (position = -1)) as [->|Hne].
  - rewrite (bind_ok _ _ _ _ _ (set_all self value)), !set_all. simpl.
    do 2 f_equal.
    rewrite !(const_fmap _ _ (if value =? 1 then ALL_SET else ALL_CLEAR))
      by done.
    by rewrite length_replicate.
  - unfold bind. rewrite set_cases by done. unfold word_update.
    destruct (n_bits self <? position mod INT_SIZE) eqn:Eg; [done|].
    destruct (py_index _ _) as [k|] eqn:Hk; [|done].
    rewrite set_cases by done. unfold word_update. simpl.
    rewrite Eg, length_insert, Hk.
    rewrite list_lookup_total_insert_eq by (by eapply py_index_lt).
    by rewrite set_word_twice, list_insert_insert_eq.
Qed.

(** X13. On an object that satisfies the length invariant, two [set]
    calls on different positions in [0, n_bits) can be made in either
    order: both orders return normally and leave the same object. *)
Theorem set_commutes self p v q v' :
  wf self -> 0 <= p < n_bits self -> 0 <= q < n_bits self -> p <> q ->
  (set p v ;; set q v') self = (set q v' ;; set p v) self /\
  outcome (set p v ;; set q v') self = Ok tt.
Proof.
  intros Hwf Hp Hq Hne.
  pose proof (valid_offset _ _ Hp) as Hbp.
  pose proof (valid_offset _ _ Hq) as Hbq.
  pose proof (valid_index _ _ Hwf Hp) as Hip.
  pose proof (valid_index _ _ Hwf Hq) as Hiq.
  assert (forall a va b vb,
            0 <= a mod INT_SIZE <= n_bits self ->
            0 <= b mod INT_SIZE <= n_bits self ->
            0 <= a / INT_SIZE < Z.of_nat (length (bits self)) ->
            0 <= b / INT_SIZE < Z.of_nat (length (bits self)) ->
            a <> -1 -> b <> -1 ->
            (set a va ;; set b vb) self
            = (Ok tt,
               mkBitSet (n_bits self)
                 (<[Z.to_nat (b / INT_SIZE) :=
                      set_word b vb
                        (<[Z.to_nat (a / INT_SIZE) :=
                             set_word a va (bits self !!! Z.to_nat (a / INT_SIZE))]>
                           (bits self) !!! Z.to_nat (b / INT_SIZE))]>
                    (<[Z.to_nat (a / INT_SIZE) :=
                         set_word a va (bits self !!! Z.to_nat (a / INT_SIZE))]>
                       (bits self))))) as Hseq.
  { intros a va b vb Hba Hbb Hia Hib Ha Hb. unfold bind.
    rewrite set_cases, word_update_valid by done.
    rewrite set_cases by done.
    by rewrite word_update_valid by (simpl; rewrite ?length_insert; done). }
  rewrite (Hseq p v q v'), (Hseq q v' p v) by (done || lia).
  unfold outcome. rewrite (Hseq p v q v') by (done || lia).
  split; [|done]. do 2 f_equal.
  destruct (decide (p / INT_SIZE = q / INT_SIZE)) as [Heq|Hdiff].
  - rewrite Heq. rewrite !list_lookup_total_insert_eq by lia.
    rewrite !list_insert_insert_eq. f_equal.
    apply set_word_comm. intros Hm. apply Hne. by apply same_slot.
  - rewrite !list_lookup_total_insert_ne by lia.
    apply list_insert_insert_ne. lia.
Qed.

(** [set(0, 1)] and [set(5, 0)] on a capacity-7 object. *)
Lemma set_commutes_witness :
  wf (fresh 7) /\
  (set 0 1 ;; set 5 0) (fresh 7) = (set 5 0 ;; set 0 1) (fresh 7) /\
  outcome (set 0 1 ;; set 5 0) (fresh 7) = Ok tt.
Proof.
  assert (wf (fresh 7)) as Hwf by (split; [simpl; lia | reflexivity]).
  split; [exact Hwf|].
  apply (set_commutes (fresh 7) 0 1 5 0 Hwf); simpl; lia.
Defined.

(** ** Negative positions *)

Lemma shifted_position_parts p len :
  (p - INT_SIZE * len) mod INT_SIZE = p mod INT_SIZE /\
  (p - INT_SIZE * len) / INT_SIZE = p / INT_SIZE - len.
Proof.
  unfold INT_SIZE.
  replace (p - 32 * len) with (p + (- len) * 32) by lia.
  rewrite Z_mod_plus_full, Z_div_plus_full by lia. split; [done|lia].
Qed.

Lemma py_index_from_back n i :
  0 <= i < Z.of_nat n -> py_index n (i - Z.of_nat n) = py_index n i.
Proof.
  intros Hi. rewrite (py_index_front n i) by done. unfold py_index.
  rewrite bool_decide_eq_false_2 by lia.
  rewrite bool_decide_eq_true_2 by lia. do 2 f_equal. lia.
Qed.

(** X14. Reading wraps around for negative positions: for [p] in
    [0, 32 * len), [bs[p - 32 * len]] ends exactly as [bs[p]] does, on
    every object; it is the list subscript that accepts a negative
    index. *)
Theorem getitem_negative_alias self p :
  let len := Z.of_nat (length (bits self)) in
  0 <= p < INT_SIZE * len ->
  __getitem__ (p - INT_SIZE * len) self = __getitem__ p self.
Proof.
  intros len Hp. subst len. rewrite !getitem_cases.
  destruct (shifted_position_parts p (Z.of_nat (length (bits self))))
    as [-> ->].
  rewrite py_index_from_back; [done|].
  unfold INT_SIZE in *. split; [apply Z.div_pos; lia|].
  apply Z.div_lt_upper_bound; lia.
Qed.

(** [bs[-4]] and [bs[28]] on a capacity-32 object with bit 28 set. *)
Lemma getitem_negative_alias_witness :
  0 <= 28 < INT_SIZE * 1 /\
  __getitem__ (28 - INT_SIZE * 1) (after (set 28 1) (fresh 32))
  = __getitem__ 28 (after (set 28 1) (fresh 32)).
Proof.
  assert (0 <= 28 < INT_SIZE * 1) as Hp by (unfold INT_SIZE; lia).
  split; [exact Hp|].
  exact (getitem_negative_alias (after (set 28 1) (fresh 32)) 28 Hp).
Defined.

(** X15. Writing wraps around too: for [p] in [0, 32 * len) with
    [p - 32 * len] other than [-1], [set] and [flip] at [p - 32 * len] end
    exactly as at [p], on every object. *)
Theorem write_negative_alias self p value :
  let len := Z.of_nat (length (bits self)) in
  0 <= p < INT_SIZE * len -> p - INT_SIZE * len <> -1 ->
  set (p - INT_SIZE * len) value self = set p value self /\
  flip (p - INT_SIZE * len) self = flip p self.
Proof.
  intros len Hp Hne. subst len.
  rewrite !set_cases, !flip_cases by lia. unfold set_word, word_update.
  destruct (shifted_position_parts p (Z.of_nat (length (bits self))))
    as [-> ->].
  rewrite py_index_from_back; [done|].
  unfold INT_SIZE in *. split; [apply Z.div_pos; lia|].
  apply Z.div_lt_upper_bound; lia.
Qed.

(** [set(-4, 1)] and [set(28, 1)] on a capacity-32 object. *)
Lemma write_negative_alias_witness :
  0 <= 28 < INT_SIZE * 1 /\ 28 - INT_SIZE * 1 <> -1 /\
  set (28 - INT_SIZE * 1) 1 (fresh 32) = set 28 1 (fresh 32) /\
  flip (28 - INT_SIZE * 1) (fresh 32) = flip 28 (fresh 32).
Proof.
  assert (0 <= 28 < INT_SIZE * 1) as Hp by (unfold INT_SIZE; lia).
  assert (28 - INT_SIZE * 1 <> -1) as Hne by (unfold INT_SIZE; lia).
  split; [exact Hp|]. split; [exact Hne|].
  exact (write_negative_alias (fresh 32) 28 1 Hp Hne).
Defined.

(** ** The characters of the rendering *)

Lemma get_append_l (s1 s2 : string) i :
  (i < String.length s1)%nat -> String.get i (s1 ++ s2) = String.get i s1.
Proof. intros H. symmetry. by apply append_correct1. Qed.

Lemma get_append_r (s1 s2 : string) i :
  String.get (String.length s1 + i) (s1 ++ s2) = String.get i s2.
Proof. rewrite Nat.add_comm. symmetry. apply append_correct2. Qed.

Lemma get_word_string w (m : nat) :
  forall a (k : nat),
    (k < m)%nat ->
    String.get k (word_string w (seqZ a (Z.of_nat m)))
    = Some (bit_char (Z.testbit w (a + Z.of_nat k))).
Proof.
  induction m as [|m IH]; intros a k Hk; [lia|].
  rewrite seqZ_cons by lia. cbn [word_string]. rewrite str_of_bit.
  replace (Z.pred (Z.of_nat (S m))) with (Z.of_nat m) by lia.
  destruct k as [|k].
  - replace (a + Z.of_nat 0) with a by lia. by destruct (Z.testbit w a).
  - replace (a + Z.of_nat (S k)) with (Z.succ a + Z.of_nat k) by lia.
    rewrite <- (IH (Z.succ a) k) by lia. by destruct (Z.testbit w a).
Qed.

Lemma rendered_from_step self j :
  0 <= j < Z.of_nat (length (bits self)) ->
  rendered_from self j = emitted self j + rendered_from self (Z.succ j) /\
  (rendered_from self (Z.succ j) > 0 -> emitted self j = INT_SIZE).
Proof.
  intros Hj. pose proof (offset_range (n_bits self)) as Hr.
  unfold rendered_from, emitted, INT_SIZE in *.
  replace (j <? Z.of_nat (length (bits self))) with true
    by (symmetry; apply Z.ltb_lt; lia).
  destruct (Z.eqb_spec j (Z.of_nat (length (bits self)) - 1)) as [->|Hne].
  - replace (Z.succ (Z.of_nat (length (bits self)) - 1)
             <? Z.of_nat (length (bits self))) with false
      by (symmetry; apply Z.ltb_ge; lia).
    lia.
  - replace (Z.succ j <? Z.of_nat (length (bits self))) with true
      by (symmetry; apply Z.ltb_lt; lia).
    lia.
Qed.

Lemma slot_of_position j k :
  0 <= k < INT_SIZE ->
  (INT_SIZE * j + k) / INT_SIZE = j /\ (INT_SIZE * j + k) mod INT_SIZE = k.
Proof.
  unfold INT_SIZE. intros Hk.
  replace (32 * j + k) with (k + j * 32) by lia.
  rewrite Z_div_plus_full, Z_mod_plus_full by lia.
  rewrite Z.div_small, Z.mod_small by lia. split; [lia|done].
Qed.

Lemma str_loop_chars self :
  wf self ->
  forall (m : nat) j acc,
    0 <= j -> j + Z.of_nat m = Z.of_nat (length (bits self)) ->
    exists s,
      str_loop (seqZ j (Z.of_nat m)) acc self = (Ok s, self) /\
      Z.of_nat (String.length s)
      = Z.of_nat (String.length acc) + rendered_from self j /\
      (forall i, (i < String.length acc)%nat ->
                 String.get i s = String.get i acc) /\
      (forall k, 0 <= k < rendered_from self j ->
                 String.get (String.length acc + Z.to_nat k) s
                 = Some (bit_char (stored_bit self (INT_SIZE * j + k)))).
Proof.
  intros Hwf. induction m as [|m IH]; intros j acc Hj Hm.
  - rewrite seqZ_nil by lia. exists acc.
    assert (rendered_from self j = 0) as ->.
    { unfold rendered_from.
      by replace (j <? Z.of_nat (length (bits self))) with false
        by (symmetry; apply Z.ltb_ge; lia). }
    split; [done|]. split; [lia|]. split; [done|]. intros k Hk. lia.
  - assert (0 <= j < Z.of_nat (length (bits self))) as Hjl by lia.
    rewrite seqZ_cons by lia. cbn [str_loop].
    rewrite (bind_ok _ _ _ _ _ (int_to_bitstring_spec self j Hwf Hjl)).
    replace (Z.pred (Z.of_nat (S m))) with (Z.of_nat m) by lia.
    set (piece := word_string (bits self !!! Z.to_nat j)
                    (seqZ 0 (emitted self j))).
    destruct (emitted_range self j Hwf Hjl) as [He _].
    assert (String.length piece = Z.to_nat (emitted self j)) as Hpiece
      by (unfold piece; by rewrite length_word_string, length_seqZ).
    destruct (rendered_from_step self j Hjl) as [Hstep Hfull].
    destruct (IH (Z.succ j) (acc ++ piece)%string ltac:(lia) ltac:(lia))
      as (s & Hs & Hlen & Hkeep & Hchars).
    rewrite length_append, Hpiece in Hlen, Hkeep, Hchars.
    exists s. split; [done|]. split; [lia|]. split.
    + intros i Hi. rewrite Hkeep by lia. by apply get_append_l.
    + intros k Hk. destruct (Z.lt_ge_cases k (emitted self j)) as [Hin|Hout].
      * rewrite Hkeep by lia. rewrite get_append_r. unfold piece.
        replace (emitted self j) with (Z.of_nat (Z.to_nat (emitted self j)))
          by lia.
        rewrite get_word_string by lia.
        unfold stored_bit.
        destruct (slot_of_position j k ltac:(lia)) as [-> ->].
        do 3 f_equal. lia.
      * rewrite Hfull in * by lia.
        specialize (Hchars (k - INT_SIZE) ltac:(lia)).
        replace (INT_SIZE * Z.succ j + (k - INT_SIZE)) with (INT_SIZE * j + k)
          in Hchars by lia.
        rewrite <- Hchars. f_equal. unfold INT_SIZE in *. lia.
Qed.

(** X16. On an object that satisfies the length invariant, the rendering
    agrees with reading: character [p] of [str(bs)] is '1' when [bs[p]]
    is 1 and '0' when it is 0, for every index [p] of the string. *)
Theorem str_agrees_with_getitem self :
  wf self ->
  exists s,
    outcome __str__ self = Ok s /\
    forall p, 0 <= p < Z.of_nat (String.length s) ->
      exists b,
        outcome (__getitem__ p) self = Ok (Z.b2z b) /\
        String.get (Z.to_nat p) s = Some (bit_char b).
Proof.
  intros Hwf.
  destruct (str_loop_chars self Hwf (length (bits self)) 0 "" ltac:(lia)
              ltac:(lia)) as (s & Hs & Hlen & _ & Hchars).
  exists s. split.
  - unfold outcome, __str__, range, bind, self_len_bits. by rewrite Hs.
  - intros p Hp. exists (stored_bit self p). simpl in Hlen, Hchars.
    assert (rendered_from self 0 <= n_bits self) as Hle.
    { destruct Hwf as [Hn Hwords]. unfold rendered_from. rewrite Hwords.
      unfold number_of_integers_needed, ceil_div, INT_SIZE.
      pose proof (Z.div_mod (- n_bits self) 32 ltac:(lia)).
      pose proof (Z.mod_pos_bound (- n_bits self) 32 ltac:(lia)).
      pose proof (Z.div_mod (n_bits self) 32 ltac:(lia)).
      pose proof (Z.mod_pos_bound (n_bits self) 32 ltac:(lia)).
      destruct (Z.ltb_spec 0 (- (- n_bits self / 32))); lia. }
    split.
    + unfold outcome. rewrite getitem_valid; [done..|lia].
    + specialize (Hchars p ltac:(lia)).
      by replace (INT_SIZE * 0 + p) with p in Hchars by (unfold INT_SIZE; lia).
Qed.

(** The rendering of a capacity-7 object with positions 0 and 5 set. *)
Lemma str_agrees_with_getitem_witness :
  wf (after (set 0 1 ;; set 5 1) (fresh 7)) /\
  exists s,
    outcome __str__ (after (set 0 1 ;; set 5 1) (fresh 7)) = Ok s /\
    forall p, 0 <= p < Z.of_nat (String.length s) ->
      exists b,
        outcome (__getitem__ p) (after (set 0 1 ;; set 5 1) (fresh 7))
        = Ok (Z.b2z b) /\
        String.get (Z.to_nat p) s = Some (bit_char b).
Proof.
  assert (wf (after (set 0 1 ;; set 5 1) (fresh 7))) as Hwf
    by (split; [simpl; lia | reflexivity]).
  split; [exact Hwf|]. exact (str_agrees_with_getitem _ Hwf).
Defined.

(** ** Reading never writes *)

Lemma get_pure idx bit self : snd (__get idx bit self) = self.
Proof.
  unfold __get, check_bit, bind, self_n_bits, load, ret, raise. run_cases.
Qed.

Lemma bitstring_loop_pure idx self offsets :
  forall acc, snd (bitstring_loop idx offsets acc self) = self.
Proof.
  induction offsets as [|i rest IH]; intros acc; [done|].
  cbn [bitstring_loop]. unfold bind at 1. unfold self_len_bits at 1.
  cbn iota beta. unfold bind at 1. unfold self_n_bits at 1. cbn iota beta.
  destruct (_ && _); [done|].
  unfold bind. pose proof (get_pure idx i self) as Hg.
  destruct (__get idx i self) as [[b|e] s']; simpl in Hg; subst s'; [|done].
  apply IH.
Qed.

Lemma int_to_bitstring_pure idx self :
  snd (__int_to_bitstring idx self) = self.
Proof.
  unfold __int_to_bitstring, bind.
  pose proof (bitstring_loop_pure idx self (seqZ 0 INT_SIZE) "") as Hl.
  destruct (bitstring_loop _ _ _ _) as [[b|e] s']; simpl in Hl; by subst s'.
Qed.

Lemma str_loop_pure self idxs : forall acc, snd (str_loop idxs acc self) = self.
Proof.
  induction idxs as [|i rest IH]; intros acc; [done|].
  cbn [str_loop]. unfold bind.
  pose proof (int_to_bitstring_pure i self) as Hp.
  destruct (__int_to_bitstring i self) as [[b|e] s']; simpl in Hp; subst s';
    [|done].
  apply IH.
Qed.

(** X17. Reading never changes the object: after [bs[position]] and
    after [str(bs)] the object is exactly as before, for every object and
    position, whether the call returned or raised. *)
Theorem reads_leave_object position self :
  after (__getitem__ position) self = self /\ after __str__ self = self.
Proof.
  split; [apply getitem_pure|].
  unfold after, __str__, bind, self_len_bits. apply str_loop_pure.
Qed.

(** ** The two arithmetic helpers *)


(** X19. [__index_bit_in_bitset] splits a position, negative ones
    included, into an element index and an offset in [0, 32) from which
    the position is [32 * idx + bit]; so two positions with the same pair
    are the same position. *)
Theorem index_bit_in_bitset_splits position :
  let '(idx, bit) := index_bit_in_bitset position in
  0 <= bit < INT_SIZE /\ position = INT_SIZE * idx + bit /\
  forall q, index_bit_in_bitset q = (idx, bit) -> q = position.
Proof.
  unfold index_bit_in_bitset, divmod.
  split; [apply offset_range|]. split.
  - unfold INT_SIZE. apply Z.div_mod. lia.
  - intros q [= Hd Hm]. by apply same_slot.
Qed.
